(** * tensorpipe/common/callback.h

    A shallow embedding of the two primitives of [callback.h]:

    - [runIfAlive], the wrapper that runs a function only while the object it
      is bound to is still owned by some [std::shared_ptr];
    - [RearmableCallback], the one-slot callback register with a FIFO backlog
      of stashed argument tuples, guarded by a [std::mutex].

    Both are written in a state monad with failure.  User-supplied callables
    are opaque to the header; what the header does with them is recorded in
    a history of the calls entered and the invocations made. *)

From stdpp Require Import base option list gmap.

Set Warnings "-register-all".

(** ** Calls that fail to return *)

Inductive failure : Type :=
| Deadlock      (* [std::mutex::lock] by the thread that already owns it *)
| BadWeakPtr    (* [shared_from_this] on an object no [shared_ptr] owns *)
| Dangling      (* [operator*] on an empty [shared_ptr] or a dead object *)
| Unfinished.   (* the interpreter of callback bodies ran out of fuel *)

Inductive outcome (A : Type) : Type :=
| Returns (a : A)
| Fails (e : failure).
Arguments Returns {A} a.
Arguments Fails {A} e.

(** A computation over a world [W]: the new world and a result, or a
    failure. *)
Definition M (W A : Type) : Type := W -> outcome (A * W).

#[global] Instance M_ret {W} : MRet (M W) :=
  fun A a w => Returns (a, w).

#[global] Instance M_bind {W} : MBind (M W) :=
  fun A B k m w =>
    match m w with
    | Returns (a, w') => k a w'
    | Fails e => Fails e
    end.

Definition fail {W A} (e : failure) : M W A := fun _ => Fails e.
Definition gets {W A} (proj : W -> A) : M W A := fun w => Returns (proj w, w).
Definition modify {W} (upd : W -> W) : M W unit := fun w => Returns (tt, upd w).

(** ** RearmableCallback *)

(** Modelled from the spec: [optional] of [tensorpipe/common/optional.h],
    which is not among the sources.  The specification calls [callback_]
    one optional callback slot that holds at most one callback: a value or
    nothing.  [has_value()] is the match on [Some], [reset()] and [value()]
    read and clear it. *)
Definition optional (A : Type) : Type := option A.

Inductive mutex : Type := Unlocked | Locked.

(** One call on an instance.  [F] is the class's callback type and [Args]
    its [TStoredArgs], the tuple of one trigger's arguments. *)
Inductive call (F Args : Type) : Type :=
| Arm (f : F)
| Trigger (args : Args)
| TriggerIfArmed (args : Args).
Arguments Arm {F Args} f.
Arguments Trigger {F Args} args.
Arguments TriggerIfArmed {F Args} args.

Section RearmableCallback.
Context {F Args : Type}.

(** The three data members. *)
Record RearmableCallback : Type := mkRearmableCallback {
  mutex_ : mutex;
  callback_ : optional F;
  queue_ : list Args
}.

(** The history of an instance: [Called c], the call [c] was entered;
    [Invoked f args during], [cb_apply f args] happened while the instance's
    mutex was [during]. *)
Inductive event : Type :=
| Called (c : call F Args)
| Invoked (f : F) (args : Args) (during : mutex).

Record world : Type := mkWorld {
  self : RearmableCallback;
  trace : list event
}.

(** A default-constructed instance. *)
Definition fresh : world :=
  mkWorld (mkRearmableCallback Unlocked None []) [].

Definition set_mutex (m : mutex) (w : world) : world :=
  mkWorld (mkRearmableCallback m (callback_ (self w)) (queue_ (self w)))
          (trace w).
Definition set_callback (c : optional F) (w : world) : world :=
  mkWorld (mkRearmableCallback (mutex_ (self w)) c (queue_ (self w)))
          (trace w).
Definition set_queue (q : list Args) (w : world) : world :=
  mkWorld (mkRearmableCallback (mutex_ (self w)) (callback_ (self w)) q)
          (trace w).
Definition record (e : event) (w : world) : world :=
  mkWorld (self w) (trace w ++ [e]).

(** [mutex_.lock()]: a [std::mutex] is not recursive, a second lock by its
    owner never returns. *)
Definition lock : M world unit :=
  m ← gets (λ w, mutex_ (self w));
  match m with
  | Locked => fail Deadlock
  | Unlocked => modify (set_mutex Locked)
  end.

Definition unlock : M world unit := modify (set_mutex Unlocked).

(** What running a callback's body does to the instance is the caller's
    business: [enter f args] stands for the body of [f] applied to
    [args]. *)
Variable enter : F -> Args -> M world unit.

(** [cb_apply(std::move(f), args)]: the call [f(args...)]. *)
Definition cb_apply (f : F) (args : Args) : M world unit :=
  m ← gets (λ w, mutex_ (self w));
  modify (record (Invoked f args m));;
  enter f args.

(** [void arm(F&& f)] *)
Definition arm (f : F) : M world unit :=
  lock;;                                   (* unique_lock lock(mutex_) *)
  q ← gets (λ w, queue_ (self w));
  match q with
  | args :: rest =>                        (* !queue_.empty() *)
      modify (set_queue rest);;            (* front moved out, pop_front *)
      unlock;;                             (* lock.unlock() *)
      cb_apply f args
  | [] =>
      modify (set_callback (Some f));;     (* callback_ = std::move(f) *)
      unlock                               (* ~unique_lock *)
  end.

(** [void trigger(Args... args)] *)
Definition trigger (args : Args) : M world unit :=
  lock;;                                   (* unique_lock lock(mutex_) *)
  c ← gets (λ w, callback_ (self w));
  match c with
  | Some f =>                              (* callback_.has_value() *)
      modify (set_callback None);;         (* moved out, callback_.reset() *)
      unlock;;                             (* lock.unlock() *)
      cb_apply f args
  | None =>
      q ← gets (λ w, queue_ (self w));
      modify (set_queue (q ++ [args]));;   (* queue_.emplace_back(args) *)
      unlock                               (* ~unique_lock *)
  end.

(** [void triggerIfArmed(Args... args)] *)
Definition triggerIfArmed (args : Args) : M world unit :=
  lock;;                                   (* lock_guard lock(mutex_) *)
  c ← gets (λ w, callback_ (self w));
  match c with
  | Some f =>                              (* callback_.has_value() *)
      modify (set_callback None);;         (* moved out, callback_.reset() *)
      cb_apply f args;;
      unlock                               (* ~lock_guard *)
  | None =>
      unlock                               (* ~lock_guard *)
  end.

Definition perform (c : call F Args) : M world unit :=
  modify (record (Called c));;
  match c with
  | Arm f => arm f
  | Trigger args => trigger args
  | TriggerIfArmed args => triggerIfArmed args
  end.

(** A program: calls made one after the other. *)
Fixpoint perform_all (cs : list (call F Args)) : M world unit :=
  match cs with
  | [] => mret tt
  | c :: cs' => perform c;; perform_all cs'
  end.

End RearmableCallback.

Arguments RearmableCallback : clear implicits.
Arguments event : clear implicits.
Arguments world : clear implicits.

(** *** Callbacks that leave the instance alone

    The body of an [inert] callback makes no call on the instance it was
    handed to; the header sees it as a black box. *)
Definition inert {F Args} : F -> Args -> M (world F Args) unit :=
  λ _ _, mret tt.

(** *** Callbacks that call back

    A callback whose body, given its arguments, makes further calls on the
    same instance, from the thread that invoked it. *)
Inductive callback (Args : Type) : Type :=
| Fn (name : nat) (body : Args -> list (call (callback Args) Args)).
Arguments Fn {Args} name body.

Definition body {Args} (f : callback Args) :
    Args -> list (call (callback Args) Args) :=
  match f with Fn _ b => b end.

(** Runs the body of [f]; every nested invocation costs one unit of fuel. *)
Fixpoint run_body {Args} (fuel : nat) (f : callback Args) (args : Args)
    : M (world (callback Args) Args) unit :=
  match fuel with
  | 0 => fail Unfinished
  | S n => perform_all (run_body n) (body f args)
  end.

Definition run {Args} (fuel : nat) (cs : list (call (callback Args) Args))
    : M (world (callback Args) Args) unit :=
  perform_all (run_body fuel) cs.

(** *** Observations *)

Section Observations.
Context {F Args : Type}.

(** Who was invoked with what, in order. *)
Definition invocations (tr : list (event F Args)) : list (F * Args) :=
  omap (λ e, match e with
             | Invoked f args _ => Some (f, args)
             | Called _ => None
             end) tr.

(** The argument tuples handed to callbacks, in order. *)
Definition delivered (tr : list (event F Args)) : list Args :=
  (invocations tr).*2.

(** The mutex as each invoked callback found it. *)
Definition mutex_seen (tr : list (event F Args)) : list mutex :=
  omap (λ e, match e with
             | Invoked _ _ m => Some m
             | Called _ => None
             end) tr.

(** The calls entered, in order, whoever made them. *)
Definition entered (tr : list (event F Args)) : list (call F Args) :=
  omap (λ e, match e with
             | Called c => Some c
             | Invoked _ _ _ => None
             end) tr.

(** The argument tuples of the [trigger] calls among [cs], in order. *)
Definition triggered (cs : list (call F Args)) : list Args :=
  omap (λ c, match c with Trigger args => Some args | _ => None end) cs.

Definition is_arm_or_trigger (c : call F Args) : bool :=
  match c with
  | Arm _ | Trigger _ => true
  | TriggerIfArmed _ => false
  end.

(** The callbacks handed to the [arm] calls among [cs], in order. *)
Definition armed_by (cs : list (call F Args)) : list F :=
  omap (λ c, match c with Arm f => Some f | _ => None end) cs.

(** An occupied slot comes with an empty backlog. *)
Definition armed_means_drained (o : RearmableCallback F Args) : Prop :=
  is_Some (callback_ o) → queue_ o = [].

(** What was delivered, then what is stashed, is what was triggered. *)
Definition in_trigger_order (w : world F Args) : Prop :=
  delivered (trace w) ++ queue_ (self w) = triggered (entered (trace w)).

(** At no point of the history have there been more invocations than
    [trigger] calls. *)
Definition never_ahead (tr : list (event F Args)) : Prop :=
  ∀ tr1, tr1 `prefix_of` tr →
    length (delivered tr1) ≤ length (triggered (entered tr1)).

(** The invariant of an instance on which only [arm] and [trigger] have been
    called, and the part of it that [triggerIfArmed] keeps. *)
Definition consistent (w : world F Args) : Prop :=
  armed_means_drained (self w)
  ∧ (forallb is_arm_or_trigger (entered (trace w)) →
     in_trigger_order w ∧ never_ahead (trace w)).
End Observations.

(** *** The arm discipline and callbacks that only rearm *)

Section Discipline.
Context {F Args : Type}.

(** The callbacks invoked so far, then the one waiting in the slot, were
    handed to [arm] in that order. *)
Definition armed_in_order (w : world F Args) : Prop :=
  (invocations (trace w)).*1 ++ option_list (callback_ (self w))
  `sublist_of` armed_by (entered (trace w)).

Definition orderly (w : world F Args) : Prop :=
  armed_means_drained (self w) ∧ armed_in_order w.

(** The caller never arms twice without a [trigger] in between: at every
    point of the program at most one [arm] call is unmatched. *)
Definition disciplined (cs : list (call F Args)) : Prop :=
  ∀ p, p `prefix_of` cs → length (armed_by p) ≤ S (length (triggered p)).

(** A call that is not [triggerIfArmed], its callback being as [P] wants. *)
Inductive rearms (P : F -> Prop) : call F Args -> Prop :=
| rearms_arm f : P f → rearms P (Arm f)
| rearms_trigger args : rearms P (Trigger args).
End Discipline.

(** A callback that calls only [arm] and [trigger], and hands only such
    callbacks to [arm]. *)
Inductive calm {Args : Type} : callback Args -> Prop :=
| calm_Fn name b :
    (∀ args, Forall (rearms calm) (b args)) → calm (Fn name b).

(** The mutex is free, the callback in the slot is [calm], and every callback
    invoked so far found the mutex free. *)
Definition relaxed {Args : Type} (w : world (callback Args) Args) : Prop :=
  mutex_ (self w) = Unlocked
  ∧ (∀ f, callback_ (self w) = Some f → calm f)
  ∧ Forall (λ m, m = Unlocked) (mutex_seen (trace w)).

(** ** runIfAlive *)

Section RunIfAlive.
Context {Args U : Type}.

(** The part of the heap [runIfAlive] depends on: for each object managed
    by [std::shared_ptr], named by its control block, how many
    [shared_ptr]s own it.  The object is destroyed when the count reaches
    zero.  [user] is whatever state the wrapped function works on, and
    [calls] lists the calls made to it: the object and the arguments
    received. *)
Record heap : Type := mkHeap {
  owners : gmap positive nat;
  user : U;
  calls : list (positive * Args)
}.

Definition use_count (p : positive) (h : heap) : nat :=
  default 0 (owners h !! p).

Definition set_use_count (p : positive) (n : nat) (h : heap) : heap :=
  mkHeap (<[p := n]> (owners h)) (user h) (calls h).

(** A [shared_ptr<T>]: empty, or one of the owners of an object. *)
Definition shared_ptr : Type := option positive.

(** [subject.shared_from_this()] *)
Definition shared_from_this (subject : positive) : M heap shared_ptr :=
  n ← gets (use_count subject);
  match n with
  | 0 => fail BadWeakPtr
  | S _ => modify (set_use_count subject (S n));; mret (Some subject)
  end.

(** [weak.lock()]: a new owner if the object still has one, else empty. *)
Definition weak_lock (weak : positive) : M heap shared_ptr :=
  n ← gets (use_count weak);
  match n with
  | 0 => mret None
  | S _ => modify (set_use_count weak (S n));; mret (Some weak)
  end.

(** [~shared_ptr()] *)
Definition shared_release (sp : shared_ptr) : M heap unit :=
  match sp with
  | None => mret tt
  | Some p =>
      n ← gets (use_count p);
      modify (set_use_count p (pred n))
  end.

(** [operator*] of a [shared_ptr] *)
Definition deref (sp : shared_ptr) : M heap positive :=
  match sp with
  | None => fail Dangling
  | Some p =>
      n ← gets (use_count p);
      match n with
      | 0 => fail Dangling
      | S _ => mret p
      end
  end.

(** The closure [runIfAlive] returns: [weak] is its captured
    [std::weak_ptr<T>], and [call subject args] is what the call
    [fn(subject, args...)] of its captured function does. *)
Definition wrapper_calling (call : positive -> Args -> M heap unit)
    (weak : positive) (args : Args) : M heap unit :=
  shared ← weak_lock weak;                 (* auto shared = weak.lock() *)
  match shared with
  | Some _ =>                              (* if (shared) *)
      subject ← deref shared;              (* the object of shared *)
      call subject args                    (* fn(object, args...) *)
  | None => mret tt
  end;;
  shared_release shared.                   (* ~shared_ptr *)

(** [runIfAlive(subject, fn)] *)
Definition runIfAlive_calling (call : positive -> Args -> M heap unit)
    (subject : positive) : M heap (Args -> M heap unit) :=
  tmp ← shared_from_this subject;
  let weak := subject in                   (* std::weak_ptr<T>(tmp) *)
  shared_release tmp;;                     (* end of the full expression *)
  mret (wrapper_calling call weak).

(** A wrapped function that only works on the user state, given the object
    and the arguments. *)
Variable fn : positive -> Args -> U -> U.

(** [fn(subject, args...)] *)
Definition call_fn (subject : positive) (args : Args) : M heap unit :=
  modify (λ h, mkHeap (owners h) (fn subject args (user h))
                      (calls h ++ [(subject, args)])).

(** The closure and [runIfAlive] for such a function. *)
Definition wrapper (weak : positive) (args : Args) : M heap unit :=
  wrapper_calling call_fn weak args.

Definition runIfAlive (subject : positive)
    : M heap (Args -> M heap unit) :=
  runIfAlive_calling call_fn subject.

(** One owner of [p] lets go of it. *)
Definition drop_owner (p : positive) : M heap unit :=
  shared_release (Some p).

(** The same wrapper invoked once per argument tuple. *)
Fixpoint invoke_each (g : Args -> M heap unit) (l : list Args)
    : M heap unit :=
  match l with
  | [] => mret tt
  | args :: l' => g args;; invoke_each g l'
  end.

(** A wrapped function that is any computation on the heap: the call is
    listed, then [code subject args] runs. *)
Definition call_running (code : positive -> Args -> M heap unit)
    (subject : positive) (args : Args) : M heap unit :=
  modify (λ h, mkHeap (owners h) (user h) (calls h ++ [(subject, args)]));;
  code subject args.

(** What a wrapped function can do about the object it was handed: make an
    owner that someone else holds let go of it, use the object through its
    reference, and work on the user state. *)
Inductive action : Type :=
| ReleaseOwner
| UseReference
| Update (f : U -> U).

(** The object used through a plain reference: it must not have been
    destroyed. *)
Definition use_reference (subject : positive) : M heap unit :=
  n ← gets (use_count subject);
  match n with
  | 0 => fail Dangling
  | S _ => mret tt
  end.

Definition act (subject : positive) (a : action) : M heap unit :=
  match a with
  | ReleaseOwner => drop_owner subject
  | UseReference => use_reference subject
  | Update f => modify (λ h, mkHeap (owners h) (f (user h)) (calls h))
  end.

Fixpoint acts (subject : positive) (l : list action) : M heap unit :=
  match l with
  | [] => mret tt
  | a :: l' => act subject a;; acts subject l'
  end.

(** How many owners a list of actions releases, and what it makes of the
    user state. *)
Definition releases (l : list action) : nat :=
  length (omap (λ a, match a with ReleaseOwner => Some tt | _ => None end) l).

Fixpoint work (l : list action) (u : U) : U :=
  match l with
  | [] => u
  | Update f :: l' => work l' (f u)
  | _ :: l' => work l' u
  end.
End RunIfAlive.

Arguments action : clear implicits.

Arguments heap : clear implicits.

(** * Properties of RearmableCallback *)

(** ** Reading a history *)

Section History.
Context {F Args : Type}.
Implicit Types (tr : list (event F Args)) (c : call F Args).

Lemma invocations_called tr c :
  invocations (tr ++ [Called c]) = invocations tr.
Proof. unfold invocations. rewrite omap_app. simpl. apply app_nil_r. Qed.

Lemma invocations_invoked tr f args m :
  invocations (tr ++ [Invoked f args m]) = invocations tr ++ [(f, args)].
Proof. unfold invocations. by rewrite omap_app. Qed.

Lemma delivered_called tr c : delivered (tr ++ [Called c]) = delivered tr.
Proof. unfold delivered. by rewrite invocations_called. Qed.

Lemma delivered_invoked tr f args m :
  delivered (tr ++ [Invoked f args m]) = delivered tr ++ [args].
Proof. unfold delivered. by rewrite invocations_invoked, fmap_app. Qed.

Lemma entered_called tr c : entered (tr ++ [Called c]) = entered tr ++ [c].
Proof. unfold entered. by rewrite omap_app. Qed.

Lemma entered_invoked tr f args m :
  entered (tr ++ [Invoked f args m]) = entered tr.
Proof. unfold entered. rewrite omap_app. simpl. apply app_nil_r. Qed.

Lemma triggered_snoc cs c :
  triggered (cs ++ [c])
  = triggered cs ++ match c with Trigger args => [args] | _ => [] end.
Proof. unfold triggered. rewrite omap_app. by destruct c. Qed.

Lemma prefix_snoc_cases tr1 tr (e : event F Args) :
  tr1 `prefix_of` tr ++ [e] → tr1 `prefix_of` tr ∨ tr1 = tr ++ [e].
Proof.
  intros [k Hk]. destruct k as [|x k _] using rev_ind.
  - right. by rewrite app_nil_r in Hk.
  - left. exists k. rewrite app_assoc in Hk. by apply app_inj_tail in Hk as [? _].
Qed.

Lemma never_ahead_snoc tr e :
  never_ahead tr →
  length (delivered (tr ++ [e])) ≤ length (triggered (entered (tr ++ [e]))) →
  never_ahead (tr ++ [e]).
Proof.
  intros Htr He tr1 [Hpre| ->]%prefix_snoc_cases; [by apply Htr|done].
Qed.

Lemma never_ahead_called tr c : never_ahead tr → never_ahead (tr ++ [Called c]).
Proof.
  intros Htr. apply never_ahead_snoc; [done|].
  rewrite delivered_called, entered_called, triggered_snoc, length_app.
  specialize (Htr tr ltac:(done)). lia.
Qed.

End History.

(** ** The transitions of one call *)

Section Transitions.
Context {F Args : Type}.
Variable enter : F -> Args -> M (world F Args) unit.

Abbreviation RC := (@mkRearmableCallback F Args).
Abbreviation W := (@mkWorld F Args).

(** Every operation starts by taking the mutex. *)
Lemma arm_locked f slot q tr :
  arm enter f (W (RC Locked slot q) tr) = Fails Deadlock.
Proof. reflexivity. Qed.

Lemma trigger_locked args slot q tr :
  trigger enter args (W (RC Locked slot q) tr) = Fails Deadlock.
Proof. reflexivity. Qed.

Lemma triggerIfArmed_locked args slot q tr :
  triggerIfArmed enter args (W (RC Locked slot q) tr) = Fails Deadlock.
Proof. reflexivity. Qed.

Lemma perform_locked c slot q tr :
  perform enter c (W (RC Locked slot q) tr) = Fails Deadlock.
Proof. destruct c; reflexivity. Qed.

Lemma arm_backlogged f slot args rest tr :
  arm enter f (W (RC Unlocked slot (args :: rest)) tr)
  = enter f args (W (RC Unlocked slot rest) (tr ++ [Invoked f args Unlocked])).
Proof. reflexivity. Qed.

Lemma arm_drained f slot tr :
  arm enter f (W (RC Unlocked slot []) tr)
  = Returns (tt, W (RC Unlocked (Some f) []) tr).
Proof. reflexivity. Qed.

Lemma trigger_armed f args q tr :
  trigger enter args (W (RC Unlocked (Some f) q) tr)
  = enter f args (W (RC Unlocked None q) (tr ++ [Invoked f args Unlocked])).
Proof. reflexivity. Qed.

Lemma trigger_unarmed args q tr :
  trigger enter args (W (RC Unlocked None q) tr)
  = Returns (tt, W (RC Unlocked None (q ++ [args])) tr).
Proof. reflexivity. Qed.

Lemma triggerIfArmed_armed f args q tr :
  triggerIfArmed enter args (W (RC Unlocked (Some f) q) tr)
  = (enter f args;; unlock)
      (W (RC Locked None q) (tr ++ [Invoked f args Locked])).
Proof. reflexivity. Qed.

Lemma triggerIfArmed_unarmed args q tr :
  triggerIfArmed enter args (W (RC Unlocked None q) tr)
  = Returns (tt, W (RC Unlocked None q) tr).
Proof. reflexivity. Qed.

(** A call is logged, then made. *)
Lemma perform_unfold c m slot q tr :
  perform enter c (W (RC m slot q) tr)
  = match c with
    | Arm f => arm enter f
    | Trigger args => trigger enter args
    | TriggerIfArmed args => triggerIfArmed enter args
    end (W (RC m slot q) (tr ++ [Called c])).
Proof. reflexivity. Qed.

Lemma perform_all_app cs1 cs2 w :
  perform_all enter (cs1 ++ cs2) w
  = (perform_all enter cs1;; perform_all enter cs2) w.
Proof.
  revert w. induction cs1 as [|c cs1 IH]; intros w; simpl.
  - reflexivity.
  - unfold mbind, M_bind in *.
    destruct (perform enter c w) as [[[] w']|e]; [apply IH | reflexivity].
Qed.

(** *** What every call keeps *)

Hypothesis enter_keeps : ∀ f args w w',
  consistent w → enter f args w = Returns (tt, w') → consistent w'.

Lemma perform_keeps c w w' :
  consistent w → perform enter c w = Returns (tt, w') → consistent w'.
Proof.
  destruct w as [[[] slot q] tr]; [|by rewrite perform_locked].
  rewrite perform_unfold. intros [Hinv Hfifo].
  unfold consistent, armed_means_drained, in_trigger_order in *.
  simpl in *.
  destruct c as [f|args|args].
  - destruct q as [|args rest].
    + rewrite arm_drained. intros [= <-]. simpl. split; [done|].
      rewrite entered_called, delivered_called, triggered_snoc, forallb_app.
      simpl. intros [Hok _]%andb_prop_elim.
      destruct (Hfifo Hok) as [Heq Hprior]. split.
      * by rewrite !app_nil_r in *.
      * by apply never_ahead_called.
    + rewrite arm_backlogged. intros E.
      eapply enter_keeps; [|exact E]. split; simpl.
      * intros Hs. by specialize (Hinv Hs).
      * rewrite entered_invoked, entered_called, delivered_invoked,
          delivered_called, triggered_snoc, forallb_app.
        simpl. intros [Hok _]%andb_prop_elim.
        destruct (Hfifo Hok) as [Heq Hprior].
        unfold in_trigger_order. simpl. split.
        -- rewrite app_nil_r, <-app_assoc. exact Heq.
        -- apply never_ahead_snoc; [by apply never_ahead_called|].
           rewrite entered_invoked, entered_called, delivered_invoked,
             delivered_called, triggered_snoc, app_nil_r, <-Heq, !length_app.
           simpl. lia.
  - destruct slot as [f|].
    + rewrite trigger_armed. intros E.
      eapply enter_keeps; [|exact E]. split; simpl.
      * by intros [? ?].
      * rewrite entered_invoked, entered_called, delivered_invoked,
          delivered_called, triggered_snoc, forallb_app.
        simpl. intros [Hok _]%andb_prop_elim.
        destruct (Hfifo Hok) as [Heq Hprior].
        rewrite Hinv in Heq by eauto. rewrite app_nil_r in Heq.
        unfold in_trigger_order. simpl. split.
        -- rewrite Hinv by eauto. by rewrite app_nil_r, Heq.
        -- apply never_ahead_snoc; [by apply never_ahead_called|].
           rewrite entered_invoked, entered_called, delivered_invoked,
             delivered_called, triggered_snoc, Heq, !length_app.
           simpl. lia.
    + rewrite trigger_unarmed. intros [= <-]. simpl. split.
      * by intros [? ?].
      * rewrite entered_called, delivered_called, triggered_snoc, forallb_app.
        simpl. intros [Hok _]%andb_prop_elim.
        destruct (Hfifo Hok) as [Heq Hprior]. split.
        -- by rewrite app_assoc, Heq.
        -- by apply never_ahead_called.
  - assert (Hflush : ∀ tr',
      ¬ forallb is_arm_or_trigger
          (entered ((tr ++ [Called (TriggerIfArmed args)]) ++ tr'))).
    { intros tr'. unfold entered. rewrite !omap_app, !forallb_app. simpl.
      rewrite andb_false_r. simpl. tauto. }
    destruct slot as [f|].
    + rewrite triggerIfArmed_armed. unfold mbind, M_bind.
      destruct (enter f args _) as [[[] w1]|e] eqn:E; [|done].
      intros [= <-].
      assert (consistent w1) as [Hinv1 Hfifo1].
      { eapply enter_keeps; [|exact E]. split; simpl.
        - by intros [? ?].
        - intros Hok. by apply Hflush in Hok. }
      split; [exact Hinv1|]. exact Hfifo1.
    + rewrite triggerIfArmed_unarmed. intros [= <-]. simpl. split.
      * by intros [? ?].
      * intros Hok. specialize (Hflush []). rewrite app_nil_r in Hflush.
        by apply Hflush in Hok.
Qed.

Lemma perform_all_keeps cs w w' :
  consistent w → perform_all enter cs w = Returns (tt, w') → consistent w'.
Proof.
  revert w. induction cs as [|c cs IH]; intros w Hinv; simpl.
  - by intros [= <-].
  - unfold mbind, M_bind.
    destruct (perform enter c w) as [[[] w1]|e] eqn:E; [|done].
    apply IH. by eapply perform_keeps.
Qed.

End Transitions.

(** ** The three operations *)

Section Operations.
Context {F Args : Type}.
Variable enter : F -> Args -> M (world F Args) unit.

Abbreviation RC := (@mkRearmableCallback F Args).
Abbreviation W := (@mkWorld F Args).

(** Claim C5.  [trigger(args)] called with the mutex free.  If the slot holds
    a callback [f], the slot is emptied, the mutex released and [f] invoked
    on [args], once, before [trigger] returns; the backlog is as it was.  If
    the slot is empty, [args] goes to the back of the backlog and nothing is
    invoked.  The first half is stated for whatever the body of [f] does
    ([enter]); when the body leaves the instance alone the call returns with
    exactly that state. *)
Theorem trigger_effect (args : Args) (w : world F Args) :
  mutex_ (self w) = Unlocked →
  (∀ f, callback_ (self w) = Some f →
     trigger enter args w
     = enter f args (W (RC Unlocked None (queue_ (self w)))
                       (trace w ++ [Invoked f args Unlocked]))
     ∧ trigger inert args w
       = Returns (tt, W (RC Unlocked None (queue_ (self w)))
                        (trace w ++ [Invoked f args Unlocked])))
  ∧ (callback_ (self w) = None →
     trigger enter args w
     = Returns (tt, W (RC Unlocked None (queue_ (self w) ++ [args]))
                      (trace w))).
Proof.
  destruct w as [[m slot q] tr]; simpl. intros ->.
  split.
  - intros f ->. split; reflexivity.
  - intros ->. reflexivity.
Qed.

(** Claim C6.  [triggerIfArmed(args)] called with the mutex free and the slot
    empty invokes nothing and returns with the slot, the backlog and the
    history exactly as they were; whatever calls follow behave as if it had
    never been made, so [args] reaches no callback. *)
Theorem triggerIfArmed_unarmed_noop (args : Args) (w : world F Args) :
  mutex_ (self w) = Unlocked →
  callback_ (self w) = None →
  triggerIfArmed enter args w = Returns (tt, w)
  ∧ ∀ cs, (triggerIfArmed enter args;; perform_all enter cs) w
          = perform_all enter cs w.
Proof.
  destruct w as [[m slot q] tr]; simpl. intros -> ->.
  split; [reflexivity|]. intros cs. reflexivity.
Qed.

(** Where [triggerIfArmed] and [trigger] agree: each called with the mutex
    free while the slot holds a callback [f], both empty the
    slot, leave the backlog as it was and invoke [f] on [args], once, before
    they return, whatever the body of [f] does; [triggerIfArmed] releases
    the mutex after the body, [trigger] before it.  When the body leaves the
    instance alone both return, in the same state of the instance, having
    made the same single invocation. *)
Lemma triggerIfArmed_armed_like_trigger (args : Args) (f : F)
    (w : world F Args) :
  mutex_ (self w) = Unlocked →
  callback_ (self w) = Some f →
  (triggerIfArmed enter args w
   = (enter f args;; unlock)
       (W (RC Locked None (queue_ (self w)))
          (trace w ++ [Invoked f args Locked]))
   ∧ trigger enter args w
     = enter f args
         (W (RC Unlocked None (queue_ (self w)))
            (trace w ++ [Invoked f args Unlocked])))
  ∧ ∃ w1 w2,
      triggerIfArmed inert args w = Returns (tt, w1)
      ∧ trigger inert args w = Returns (tt, w2)
      ∧ self w1 = self w2
      ∧ self w1 = RC Unlocked None (queue_ (self w))
      ∧ invocations (trace w1) = invocations (trace w) ++ [(f, args)]
      ∧ invocations (trace w2) = invocations (trace w) ++ [(f, args)].
Proof.
  destruct w as [[m slot q] tr]; simpl. intros -> ->. split.
  - split; reflexivity.
  - eexists _, _. split_and!; try reflexivity; simpl;
      apply invocations_invoked.
Qed.

End Operations.

(** ** Programs of calls with callbacks that leave the instance alone *)

Section Programs.
Context {F Args : Type}.

Abbreviation RC := (@mkRearmableCallback F Args).
Abbreviation W := (@mkWorld F Args).

(** Closes the side conditions of the case analyses below. *)
Local Ltac side :=
  first
    [ done
    | by (intros; repeat constructor)
    | by (simpl; intros ? ?%elem_of_nil)
    | by (simpl; intros ? ->%list_elem_of_singleton; eauto)
    | naive_solver ].

Local Ltac regroup :=
  match goal with
  | |- _ = Returns (_, mkWorld _ (?tr ++ [?c; ?i])) =>
      replace (tr ++ [c; i]) with ((tr ++ [c]) ++ [i])
        by (by rewrite <-app_assoc);
      reflexivity
  end.

(** What one call does when made with the mutex free: it returns with the
    mutex free again and has added [Called c] and then [new] to the
    history. *)
Lemma perform_inert (c : call F Args) slot q tr :
  ∃ slot' q' new,
    perform inert c (W (RC Unlocked slot q) tr)
    = Returns (tt, W (RC Unlocked slot' q') (tr ++ Called c :: new))
    ∧ entered new = []
    ∧ (∀ f, f ∈ (invocations new).*1 → slot = Some f ∨ c = Arm f)
    ∧ (∀ f, slot' = Some f → slot = Some f ∨ c = Arm f)
    ∧ (is_arm_or_trigger c → Forall (λ m, m = Unlocked) (mutex_seen new)).
Proof.
  rewrite perform_unfold. destruct c as [f|args|args].
  - destruct q as [|args rest].
    + exists (Some f), [], []. split_and!; side.
    + exists slot, rest, [Invoked f args Unlocked].
      split_and!; [regroup|side..].
  - destruct slot as [f|].
    + exists None, q, [Invoked f args Unlocked].
      split_and!; [regroup|side..].
    + exists None, (q ++ [args]), []. split_and!; side.
  - destruct slot as [f|].
    + exists None, q, [Invoked f args Locked].
      split_and!; [regroup|side..].
    + exists None, q, []. split_and!; side.
Qed.

(** The same for a whole program: it returns, and the calls entered are the
    calls of the program. *)
Lemma perform_all_inert (cs : list (call F Args)) slot q tr :
  ∃ slot' q' new,
    perform_all inert cs (W (RC Unlocked slot q) tr)
    = Returns (tt, W (RC Unlocked slot' q') (tr ++ new))
    ∧ entered new = cs
    ∧ (∀ f, f ∈ (invocations new).*1 → slot = Some f ∨ f ∈ armed_by cs)
    ∧ (∀ f, slot' = Some f → slot = Some f ∨ f ∈ armed_by cs)
    ∧ (forallb is_arm_or_trigger cs →
        Forall (λ m, m = Unlocked) (mutex_seen new)).
Proof.
  revert slot q tr. induction cs as [|c cs IH]; intros slot q tr.
  - exists slot, q, []. rewrite app_nil_r. split_and!; side.
  - destruct (perform_inert c slot q tr)
      as (slot1 & q1 & new1 & E1 & Hent1 & Hfrom1 & Hslot1 & Hmx1).
    destruct (IH slot1 q1 (tr ++ Called c :: new1))
      as (slot' & q' & new2 & E2 & Hent2 & Hfrom2 & Hslot2 & Hmx2).
    exists slot', q', (Called c :: new1 ++ new2).
    assert (Harm : ∀ f, c = Arm f → f ∈ armed_by (c :: cs)).
    { intros f ->. unfold armed_by. simpl. apply elem_of_cons. by left. }
    assert (Hlater : ∀ f, f ∈ armed_by cs → f ∈ armed_by (c :: cs)).
    { intros f Hf. unfold armed_by in *. simpl.
      destruct c; simpl; [apply elem_of_cons; by right|done|done]. }
    split_and!.
    + simpl. unfold mbind, M_bind at 1. rewrite E1, E2.
      by rewrite <-app_assoc.
    + unfold entered in *. simpl. by rewrite omap_app, Hent1, Hent2.
    + intros f. unfold invocations. simpl. rewrite omap_app, fmap_app.
      rewrite elem_of_app. intros [Hf|Hf].
      * destruct (Hfrom1 f Hf); [by left|right; eauto].
      * destruct (Hfrom2 f Hf) as [Hs|Hs]; [|right; eauto].
        destruct (Hslot1 f Hs); [by left|right; eauto].
    + intros f Hf. destruct (Hslot2 f Hf) as [Hs|Hs]; [|right; eauto].
      destruct (Hslot1 f Hs); [by left|right; eauto].
    + intros Hall. simpl in Hall. apply andb_prop_elim in Hall.
      destruct Hall as [Hc Hcs].
      unfold mutex_seen in *. simpl. rewrite omap_app.
      apply Forall_app; eauto.
Qed.

(** [arm] and [trigger] hand over to the callback with the mutex released. *)
Lemma arm_trigger_invoke_unlocked (cs : list (call F Args)) :
  forallb is_arm_or_trigger cs →
  ∃ w, perform_all inert cs fresh = Returns (tt, w)
       ∧ Forall (λ m, m = Unlocked) (mutex_seen (trace w)).
Proof.
  intros Hcs.
  destruct (perform_all_inert cs None [] [])
    as (slot' & q' & new & E & _ & _ & _ & Hmx).
  eexists. split; [exact E|]. by apply Hmx.
Qed.

(** A callback that returns at once keeps whatever held. *)
Lemma inert_keeps (f : F) (args : Args) w w' :
  consistent w → inert f args w = Returns (tt, w') → consistent w'.
Proof. by intros Hw [= <-]. Qed.

Lemma fresh_consistent : consistent (@fresh F Args).
Proof.
  split; [by intros [? ?]|]. intros _. split; [done|].
  intros tr1 ->%prefix_nil_inv. done.
Qed.

End Programs.

(** ** Callbacks that call back *)

Lemma run_body_keeps {Args} fuel (f : callback Args) args w w' :
  consistent w → run_body fuel f args w = Returns (tt, w') → consistent w'.
Proof.
  revert f args w w'. induction fuel as [|n IH]; intros f args w w' Hw.
  - done.
  - simpl. by apply perform_all_keeps.
Qed.

Lemma run_keeps {Args} fuel (cs : list (call (callback Args) Args)) w w' :
  consistent w → run fuel cs w = Returns (tt, w') → consistent w'.
Proof. apply perform_all_keeps, run_body_keeps. Qed.

(** *** More fuel changes nothing

    A run that did not run out of fuel is the same run with more fuel. *)

Section Fuel.
Context {F Args : Type}.
Variables enter1 enter2 : F -> Args -> M (world F Args) unit.

Hypothesis enter_stable : ∀ f args w,
  enter1 f args w = Fails Unfinished ∨ enter2 f args w = enter1 f args w.

Lemma perform_stable c w :
  perform enter1 c w = Fails Unfinished
  ∨ perform enter2 c w = perform enter1 c w.
Proof.
  destruct w as [[[] slot q] tr]; [|right; by rewrite !perform_locked].
  rewrite !perform_unfold. destruct c as [f|args|args].
  - destruct q as [|args rest]; [by right|].
    rewrite !arm_backlogged. apply enter_stable.
  - destruct slot as [f|]; [|by right].
    rewrite !trigger_armed. apply enter_stable.
  - destruct slot as [f|]; [|by right].
    rewrite !triggerIfArmed_armed. unfold mbind, M_bind.
    destruct (enter_stable f args
                (mkWorld (mkRearmableCallback Locked None q)
                   ((tr ++ [Called (TriggerIfArmed args)])
                    ++ [Invoked f args Locked]))) as [E|E].
    + left. by rewrite E.
    + right. by rewrite E.
Qed.

Lemma perform_all_stable cs w :
  perform_all enter1 cs w = Fails Unfinished
  ∨ perform_all enter2 cs w = perform_all enter1 cs w.
Proof.
  revert w. induction cs as [|c cs IH]; intros w; simpl; [by right|].
  unfold mbind, M_bind.
  destruct (perform_stable c w) as [E|E]; [left; by rewrite E|].
  rewrite E. destruct (perform enter1 c w) as [[[] w1]|e]; [apply IH|by right].
Qed.
End Fuel.

Lemma run_body_stable {Args} fuel (f : callback Args) args w :
  run_body fuel f args w = Fails Unfinished
  ∨ run_body (S fuel) f args w = run_body fuel f args w.
Proof.
  revert f args w. induction fuel as [|n IH]; intros f args w; [by left|].
  apply (perform_all_stable (run_body n) (run_body (S n))). intros. apply IH.
Qed.

Lemma run_stable {Args} fuel more (cs : list (call (callback Args) Args)) w :
  run fuel cs w ≠ Fails Unfinished →
  run (more + fuel) cs w = run fuel cs w.
Proof.
  intros Hfin. induction more as [|k IH]; [done|].
  destruct (perform_all_stable (run_body (k + fuel)) (run_body (S (k + fuel)))
              (run_body_stable (k + fuel)) cs w) as [E|E].
  - unfold run in IH. rewrite IH in E. done.
  - change (S k + fuel) with (S (k + fuel)). unfold run in *.
    by rewrite E.
Qed.

(** ** What the invariant says of the counts *)

Lemma consistent_counts {F Args} (w : world F Args) :
  consistent w →
  forallb is_arm_or_trigger (entered (trace w)) →
  delivered (trace w) ++ queue_ (self w) = triggered (entered (trace w))
  ∧ length (invocations (trace w)) + length (queue_ (self w))
    = length (triggered (entered (trace w)))
  ∧ (∀ k args, delivered (trace w) !! k = Some args →
               triggered (entered (trace w)) !! k = Some args)
  ∧ never_ahead (trace w).
Proof.
  intros [_ Hw] Hok. destruct (Hw Hok) as [Heq Hprior].
  unfold in_trigger_order in Heq. split_and!.
  - done.
  - rewrite <-Heq, length_app. unfold delivered. by rewrite length_fmap.
  - intros k args Hk. rewrite <-Heq. by apply lookup_app_l_Some.
  - done.
Qed.

(** Claim C2, as amended.  Take any program of [arm] and [trigger] calls run
    on a fresh instance.  With callbacks that leave the instance alone it
    returns, having entered exactly its own calls.  The argument tuples
    handed to callbacks, in the order of the invocations, followed by the
    backlog that is left, are the argument tuples of the [trigger] calls in
    call order.  So invocations and backlog entries together number as many
    as the [trigger] calls, the k-th invocation receives the arguments of the
    k-th [trigger] call, and at no point of the history have there been more
    invocations than [trigger] calls.  The same holds of every run that
    returns when callbacks call [arm] and [trigger] themselves, their calls
    counted with the others in the order they were entered. *)
Theorem deliveries_follow_triggers {F Args} :
  (∀ cs : list (call F Args),
     forallb is_arm_or_trigger cs →
     ∃ w,
       perform_all inert cs fresh = Returns (tt, w)
       ∧ entered (trace w) = cs
       ∧ delivered (trace w) ++ queue_ (self w) = triggered cs
       ∧ length (invocations (trace w)) + length (queue_ (self w))
         = length (triggered cs)
       ∧ (∀ k args, delivered (trace w) !! k = Some args →
                    triggered cs !! k = Some args)
       ∧ never_ahead (trace w))
  ∧ (∀ fuel (cs : list (call (callback Args) Args)) w,
       run fuel cs fresh = Returns (tt, w) →
       forallb is_arm_or_trigger (entered (trace w)) →
       delivered (trace w) ++ queue_ (self w) = triggered (entered (trace w))
       ∧ length (invocations (trace w)) + length (queue_ (self w))
         = length (triggered (entered (trace w)))
       ∧ (∀ k args, delivered (trace w) !! k = Some args →
                    triggered (entered (trace w)) !! k = Some args)
       ∧ never_ahead (trace w)).
Proof.
  split.
  - intros cs Hcs.
    destruct (perform_all_inert cs None [] [])
      as (slot' & q' & new & E & Hent & _).
    eexists. split; [exact E|]. simpl. split; [done|].
    pose proof (perform_all_keeps inert inert_keeps cs fresh _
                  fresh_consistent E) as Hw.
    subst cs. exact (consistent_counts _ Hw Hcs).
  - intros fuel cs w E Hok. apply consistent_counts; [|done].
    apply (run_keeps fuel cs fresh); [|exact E]. apply fresh_consistent.
Qed.

(** Claim C3.  Whatever program of [arm], [trigger] and [triggerIfArmed]
    calls is run on a fresh instance, in the state it ends in an occupied
    slot comes with an empty backlog.  With callbacks that leave the instance
    alone every program returns; with callbacks that call back into it the
    same holds of every run that returns. *)
Theorem armed_backlog_unreachable {F Args} :
  (∀ cs : list (call F Args),
     ∃ w, perform_all inert cs fresh = Returns (tt, w)
          ∧ armed_means_drained (self w)
          ∧ ¬ (is_Some (callback_ (self w)) ∧ queue_ (self w) ≠ []))
  ∧ (∀ fuel (cs : list (call (callback Args) Args)) w,
       run fuel cs fresh = Returns (tt, w) →
       armed_means_drained (self w)
       ∧ ¬ (is_Some (callback_ (self w)) ∧ queue_ (self w) ≠ [])).
Proof.
  split.
  - intros cs.
    destruct (perform_all_inert cs None [] [])
      as (slot' & q' & new & E & _).
    eexists. split; [exact E|].
    destruct (perform_all_keeps inert inert_keeps cs fresh _
                fresh_consistent E) as [Hinv _].
    split; [done|]. intros [Hs Hne]. by apply Hne, Hinv.
  - intros fuel cs w E.
    destruct (run_keeps fuel cs fresh w fresh_consistent E) as [Hinv _].
    split; [done|]. intros [Hs Hne]. by apply Hne, Hinv.
Qed.

(** Claim C4.  [arm(f)] called with the mutex free.  If the backlog is
    [args :: rest], the entry [args] is removed, the mutex released and [f]
    invoked on [args] before [arm] returns; the slot is as it was and [rest]
    is left in the backlog.  If the backlog is empty, [f] is stored in the
    slot and nothing is invoked.  In particular [trigger(1); trigger(2);
    arm(f)] invokes [f(1)] and a following [arm(g)] invokes [g(2)]. *)
Theorem arm_effect {F : Type} :
  (∀ Args (enter : F -> Args -> M (world F Args) unit) f w,
     mutex_ (self w) = Unlocked →
     (∀ args rest, queue_ (self w) = args :: rest →
        arm enter f w
        = enter f args
            (mkWorld (mkRearmableCallback Unlocked (callback_ (self w)) rest)
                     (trace w ++ [Invoked f args Unlocked]))
        ∧ arm inert f w
          = Returns
              (tt, mkWorld
                     (mkRearmableCallback Unlocked (callback_ (self w)) rest)
                     (trace w ++ [Invoked f args Unlocked])))
     ∧ (queue_ (self w) = [] →
        arm enter f w
        = Returns (tt, mkWorld (mkRearmableCallback Unlocked (Some f) [])
                               (trace w))))
  ∧ (∀ f g : F,
       perform_all inert [Trigger 1; Trigger 2; Arm f] fresh
       = Returns (tt, mkWorld (mkRearmableCallback Unlocked None [2])
                              [Called (Trigger 1); Called (Trigger 2);
                               Called (Arm f); Invoked f 1 Unlocked])
       ∧ perform_all inert [Trigger 1; Trigger 2; Arm f; Arm g] fresh
         = Returns (tt, mkWorld (mkRearmableCallback Unlocked None [])
                                [Called (Trigger 1); Called (Trigger 2);
                                 Called (Arm f); Invoked f 1 Unlocked;
                                 Called (Arm g); Invoked g 2 Unlocked])).
Proof.
  split.
  - intros Args enter f [[m slot q] tr]; simpl. intros ->. split.
    + intros args rest ->. split; reflexivity.
    + intros ->. reflexivity.
  - intros f g. split; reflexivity.
Qed.

(** Claim C9.  [arm(f2)] called with the mutex free while the slot holds
    [f1] and the backlog is empty returns normally with [f2] in the slot and
    no invocation made.  The outcome is the one of arming an empty slot, so
    nothing of [f1] is left: no later call invokes it unless it is armed
    again. *)
Theorem arm_over_armed_replaces {F Args}
    (enter : F -> Args -> M (world F Args) unit) (f1 f2 : F)
    (w : world F Args) :
  mutex_ (self w) = Unlocked →
  callback_ (self w) = Some f1 →
  queue_ (self w) = [] →
  arm enter f2 w
  = Returns (tt, mkWorld (mkRearmableCallback Unlocked (Some f2) [])
                         (trace w))
  ∧ arm enter f2 w = arm enter f2 (set_callback None w)
  ∧ (∀ cs, f1 ≠ f2 → f1 ∉ armed_by cs →
       ∃ w' new,
         (arm inert f2;; perform_all inert cs) w = Returns (tt, w')
         ∧ trace w' = trace w ++ new
         ∧ f1 ∉ (invocations new).*1).
Proof.
  destruct w as [[m slot q] tr]; simpl. intros -> -> ->.
  split_and!; [reflexivity..|].
  intros cs Hne Hcs.
  destruct (perform_all_inert cs (Some f2) [] tr)
    as (slot' & q' & new & E & _ & Hfrom & _).
  eexists _, new. split_and!.
  - unfold mbind, M_bind. rewrite arm_drained. exact E.
  - done.
  - intros Hin. destruct (Hfrom f1 Hin) as [[= ->]|?]; done.
Qed.

(** Claim C1, on the code.  [triggerIfArmed] keeps its [lock_guard] while the
    callback runs: a callback whose body makes any call on the instance
    never returns from it.  Armed with [f], whose body arms [g],
    [triggerIfArmed(7)] deadlocks where [trigger(7)] returns with [g] in the
    slot; a callback that leaves the instance alone is seen to run with the
    mutex locked. *)
Theorem triggerIfArmed_invokes_under_lock :
  (∀ Args name (first : Args -> call (callback Args) Args) rest args q tr n,
     run (S n) [TriggerIfArmed args]
         (mkWorld (mkRearmableCallback Unlocked
                     (Some (Fn name (λ a, first a :: rest a))) q) tr)
     = Fails Deadlock)
  ∧ (let g : callback nat := Fn 1 (λ _, []) in
     let f : callback nat := Fn 0 (λ _, [Arm g]) in
     (∀ n, run (S n) [Arm f; TriggerIfArmed 7] fresh = Fails Deadlock)
     ∧ (∀ n, run (S n) [Arm f; Trigger 7] fresh
             = Returns
                 (tt, mkWorld (mkRearmableCallback Unlocked (Some g) [])
                              [Called (Arm f); Called (Trigger 7);
                               Invoked f 7 Unlocked; Called (Arm g)]))
     ∧ perform_all inert [Arm f; TriggerIfArmed 7] fresh
       = Returns (tt, mkWorld (mkRearmableCallback Unlocked None [])
                              [Called (Arm f); Called (TriggerIfArmed 7);
                               Invoked f 7 Locked])).
Proof.
  split.
  - intros Args name first rest args q tr n.
    unfold run. cbn [perform_all]. unfold mbind at 1, M_bind at 1.
    rewrite perform_unfold, triggerIfArmed_armed.
    unfold mbind at 1, M_bind at 1.
    cbn [run_body body perform_all].
    unfold mbind at 1, M_bind at 1. by rewrite perform_locked.
  - intros g f. split_and!; [intros n..|]; reflexivity.
Qed.

(** Claim C7, on the code.  Armed with a callback that triggers the next
    number when invoked, [trigger(7)] returns with 8 stashed in the backlog;
    from the same state [triggerIfArmed(7)] never returns, the callback's
    [trigger(8)] waiting for the mutex its caller holds. *)
Theorem triggerIfArmed_differs_from_trigger :
  (∀ n, run (S n) [Trigger 7]
          (mkWorld (mkRearmableCallback Unlocked
                      (Some (Fn 0 (λ a, [Trigger (a + 1)]))) []) [])
        = Returns
            (tt, mkWorld (mkRearmableCallback Unlocked None [8])
                   [Called (Trigger 7);
                    Invoked (Fn 0 (λ a, [Trigger (a + 1)])) 7 Unlocked;
                    Called (Trigger 8)]))
  ∧ (∀ n, run (S n) [TriggerIfArmed 7]
            (mkWorld (mkRearmableCallback Unlocked
                        (Some (Fn 0 (λ a, [Trigger (a + 1)]))) []) [])
          = Fails Deadlock).
Proof. split; intros n; reflexivity. Qed.

(** One [trigger] on a fresh instance is a program of [arm] and [trigger]
    calls with one [trigger] call and no invocation: the count of
    invocations is not the count of [trigger] calls. *)
Lemma one_trigger_no_invocation :
  forallb is_arm_or_trigger [@Trigger nat nat 1]
  ∧ perform_all inert [@Trigger nat nat 1] fresh
    = Returns (tt, mkWorld (mkRearmableCallback Unlocked None [1])
                           [Called (Trigger 1)])
  ∧ length (invocations [Called (@Trigger nat nat 1)])
    ≠ length (triggered [@Trigger nat nat 1]).
Proof. split_and!; [exact I|reflexivity|discriminate]. Qed.

(** ** The theorems at concrete inputs *)

(** [trigger(5)] on an instance armed with callback 0, and on one with [4]
    in its backlog. *)
Lemma trigger_effect_witness :
  trigger inert 5 (mkWorld (mkRearmableCallback Unlocked (Some 0) []) [])
  = Returns (tt, mkWorld (mkRearmableCallback Unlocked None [])
                         [Invoked 0 5 Unlocked])
  ∧ trigger inert 5 (mkWorld (@mkRearmableCallback nat nat Unlocked None [4]) [])
    = Returns (tt, mkWorld (mkRearmableCallback Unlocked None [4; 5]) []).
Proof.
  split.
  - exact (proj2 (proj1 (trigger_effect inert 5
             (mkWorld (mkRearmableCallback Unlocked (Some 0) []) [])
             eq_refl) 0 eq_refl)).
  - exact (proj2 (trigger_effect inert 5
             (mkWorld (mkRearmableCallback Unlocked None [4]) [])
             eq_refl) eq_refl).
Defined.

(** [triggerIfArmed(9)] on an unarmed instance with [3] in its backlog. *)
Lemma triggerIfArmed_unarmed_noop_witness :
  triggerIfArmed inert 9
    (mkWorld (@mkRearmableCallback nat nat Unlocked None [3]) [])
  = Returns (tt, mkWorld (mkRearmableCallback Unlocked None [3]) []).
Proof.
  exact (proj1 (triggerIfArmed_unarmed_noop inert 9
           (mkWorld (mkRearmableCallback Unlocked None [3]) [])
           eq_refl eq_refl)).
Defined.

(** A program with a double [arm]: callback 0 receives 1, callback 1
    receives 2, and 3 stays in the backlog.  Then a callback that triggers
    ten more than it was given: it receives 1, and the callback armed after
    it receives 11. *)
Lemma deliveries_follow_triggers_witness :
  (∃ w : world nat nat,
     perform_all inert [Trigger 1; Arm 0; Arm 1; Trigger 2; Trigger 3] fresh
     = Returns (tt, w)
     ∧ delivered (trace w) ++ queue_ (self w) = [1; 2; 3])
  ∧ (∃ w : world (callback nat) nat,
       run 1 [Arm (Fn 0 (λ a, [Trigger (a + 10)])); Trigger 1;
              Arm (Fn 1 (λ _, []))] fresh
       = Returns (tt, w)
       ∧ delivered (trace w) = [1; 11]
       ∧ delivered (trace w) ++ queue_ (self w)
         = triggered (entered (trace w))).
Proof.
  split.
  - destruct (proj1 (@deliveries_follow_triggers nat nat)
                [Trigger 1; Arm 0; Arm 1; Trigger 2; Trigger 3] I)
      as (w & E & _ & Hfifo & _).
    exists w. split; assumption.
  - eexists. split; [reflexivity|]. split; [reflexivity|].
    exact (proj1 (proj2 (@deliveries_follow_triggers nat nat) 1
                    [Arm (Fn 0 (λ a, [Trigger (a + 10)])); Trigger 1;
                     Arm (Fn 1 (λ _, []))] _ eq_refl I)).
Defined.

(** [trigger(7)] followed by [arm(f)], where [f] arms another callback when
    invoked. *)
Lemma armed_backlog_unreachable_witness :
  armed_means_drained
    (@mkRearmableCallback (callback nat) nat Unlocked
       (Some (Fn 1 (λ _, []))) []).
Proof.
  exact (proj1 (proj2 (@armed_backlog_unreachable nat nat) 1
           [Trigger 7; Arm (Fn 0 (λ _, [Arm (Fn 1 (λ _, []))]))]
           (mkWorld (mkRearmableCallback Unlocked (Some (Fn 1 (λ _, []))) [])
              [Called (Trigger 7);
               Called (Arm (Fn 0 (λ _, [Arm (Fn 1 (λ _, []))])));
               Invoked (Fn 0 (λ _, [Arm (Fn 1 (λ _, []))])) 7 Unlocked;
               Called (Arm (Fn 1 (λ _, [])))])
           eq_refl)).
Defined.

(** [arm] with callback 0 on a backlog of [1; 2] and on an empty one. *)
Lemma arm_effect_witness :
  arm inert 0 (mkWorld (@mkRearmableCallback nat nat Unlocked None [1; 2]) [])
  = Returns (tt, mkWorld (mkRearmableCallback Unlocked None [2])
                         [Invoked 0 1 Unlocked])
  ∧ arm inert 0 (mkWorld (@mkRearmableCallback nat nat Unlocked None []) [])
    = Returns (tt, mkWorld (mkRearmableCallback Unlocked (Some 0) []) []).
Proof.
  split.
  - exact (proj2 (proj1 (proj1 (@arm_effect nat) nat inert 0
             (mkWorld (mkRearmableCallback Unlocked None [1; 2]) [])
             eq_refl) 1 [2] eq_refl)).
  - exact (proj2 (proj1 (@arm_effect nat) nat inert 0
             (mkWorld (mkRearmableCallback Unlocked None []) [])
             eq_refl) eq_refl).
Defined.

(** Arming callback 2 over callback 1. *)
Lemma arm_over_armed_replaces_witness :
  arm inert 2 (mkWorld (@mkRearmableCallback nat nat Unlocked (Some 1) []) [])
  = Returns (tt, mkWorld (mkRearmableCallback Unlocked (Some 2) []) []).
Proof.
  exact (proj1 (arm_over_armed_replaces inert 1 2
           (mkWorld (mkRearmableCallback Unlocked (Some 1) []) [])
           eq_refl eq_refl eq_refl)).
Defined.

(** * Further properties of RearmableCallback *)

(** ** The mutex is given back *)

Section Restores.
Context {F Args : Type}.
Variable enter : F -> Args -> M (world F Args) unit.

Hypothesis enter_restores : ∀ f args w w',
  enter f args w = Returns (tt, w') → mutex_ (self w') = mutex_ (self w).

Lemma perform_restores c w w' :
  perform enter c w = Returns (tt, w') → mutex_ (self w') = mutex_ (self w).
Proof.
  destruct w as [[[] slot q] tr]; [|by rewrite perform_locked].
  rewrite perform_unfold. destruct c as [f|args|args].
  - destruct q as [|args rest].
    + rewrite arm_drained. by intros [= <-].
    + rewrite arm_backlogged. intros E. by rewrite (enter_restores _ _ _ _ E).
  - destruct slot as [f|].
    + rewrite trigger_armed. intros E. by rewrite (enter_restores _ _ _ _ E).
    + rewrite trigger_unarmed. by intros [= <-].
  - destruct slot as [f|].
    + rewrite triggerIfArmed_armed. unfold mbind, M_bind.
      destruct (enter f args _) as [[[] w1]|e]; [|done]. by intros [= <-].
    + rewrite triggerIfArmed_unarmed. by intros [= <-].
Qed.

Lemma perform_all_restores cs w w' :
  perform_all enter cs w = Returns (tt, w') →
  mutex_ (self w') = mutex_ (self w).
Proof.
  revert w. induction cs as [|c cs IH]; intros w; simpl.
  - by intros [= <-].
  - unfold mbind, M_bind.
    destruct (perform enter c w) as [[[] w1]|e] eqn:E; [|done].
    intros E'. rewrite (IH _ E'). exact (perform_restores c w w1 E).
Qed.
End Restores.

Lemma run_body_restores {Args} fuel (f : callback Args) args w w' :
  run_body fuel f args w = Returns (tt, w') →
  mutex_ (self w') = mutex_ (self w).
Proof.
  revert f args w w'. induction fuel as [|n IH]; intros f args w w'; [done|].
  simpl. by apply perform_all_restores.
Qed.

(** Property X1.  No call keeps the mutex.  A program of [arm], [trigger]
    and [triggerIfArmed] calls started with the mutex free, with callbacks
    that leave the instance alone, returns with the mutex free; and whatever
    the callbacks do, a run that returns leaves the mutex as it found it. *)
Theorem mutex_given_back {F Args} :
  (∀ (cs : list (call F Args)) w,
     mutex_ (self w) = Unlocked →
     ∃ w', perform_all inert cs w = Returns (tt, w')
           ∧ mutex_ (self w') = Unlocked)
  ∧ (∀ fuel (cs : list (call (callback Args) Args)) w w',
       run fuel cs w = Returns (tt, w') →
       mutex_ (self w') = mutex_ (self w)).
Proof.
  split.
  - intros cs [[m slot q] tr]; simpl; intros ->.
    destruct (perform_all_inert cs slot q tr) as (slot' & q' & new & E & _).
    eexists. split; [exact E|done].
  - intros fuel cs w w'.
    apply perform_all_restores. intros f args. apply run_body_restores.
Qed.

(** A callback that rearms from inside, run to the end. *)
Lemma mutex_given_back_witness :
  ∃ w' : world (callback nat) nat,
    run 1 [Arm (Fn 0 (λ a, [Arm (Fn 1 (λ _, []))])); Trigger 7] fresh
    = Returns (tt, w')
    ∧ mutex_ (self w') = Unlocked.
Proof.
  eexists. split; [reflexivity|].
  exact (proj2 (@mutex_given_back nat nat) 1
           [Arm (Fn 0 (λ a, [Arm (Fn 1 (λ _, []))])); Trigger 7]
           fresh _ eq_refl).
Defined.

(** ** Arming and triggering in either order *)

(** Property X2.  On an instance with an empty slot and an empty backlog,
    called with the mutex free, [trigger(args)] followed by [arm(f)] and
    [arm(f)] followed by [trigger(args)] are the same: each runs [f] on
    [args], once, with the mutex free, the slot and the backlog empty
    again. *)
Theorem arm_trigger_either_order {F Args}
    (enter : F -> Args -> M (world F Args) unit) f args (w : world F Args) :
  mutex_ (self w) = Unlocked →
  callback_ (self w) = None →
  queue_ (self w) = [] →
  (trigger enter args;; arm enter f) w
  = enter f args (mkWorld (mkRearmableCallback Unlocked None [])
                          (trace w ++ [Invoked f args Unlocked]))
  ∧ (arm enter f;; trigger enter args) w
    = enter f args (mkWorld (mkRearmableCallback Unlocked None [])
                            (trace w ++ [Invoked f args Unlocked])).
Proof.
  destruct w as [[m slot q] tr]; simpl. intros -> -> ->.
  split; reflexivity.
Qed.

Lemma arm_trigger_either_order_witness :
  (trigger inert 5;; arm inert 0) (@fresh nat nat)
  = Returns (tt, mkWorld (mkRearmableCallback Unlocked None [])
                         [Invoked 0 5 Unlocked])
  ∧ (arm inert 0;; trigger inert 5) (@fresh nat nat)
    = Returns (tt, mkWorld (mkRearmableCallback Unlocked None [])
                           [Invoked 0 5 Unlocked]).
Proof.
  exact (arm_trigger_either_order inert 0 5 fresh eq_refl eq_refl eq_refl).
Defined.

(** ** Callbacks burn out, in the order they were armed *)

Section BurnOut.
Context {F Args : Type}.
Variable enter : F -> Args -> M (world F Args) unit.

Lemma armed_by_snoc (cs : list (call F Args)) c :
  armed_by (cs ++ [c])
  = armed_by cs ++ match c with Arm f => [f] | _ => [] end.
Proof. unfold armed_by. rewrite omap_app. by destruct c. Qed.

Hypothesis enter_orderly : ∀ f args w w',
  orderly w → enter f args w = Returns (tt, w') → orderly w'.

Lemma perform_orderly c w w' :
  orderly w → perform enter c w = Returns (tt, w') → orderly w'.
Proof.
  destruct w as [[[] slot q] tr]; [|by rewrite perform_locked].
  rewrite perform_unfold. intros [Hinv Hord].
  unfold orderly, armed_means_drained, armed_in_order in *. simpl in *.
  destruct c as [f|args|args].
  - destruct q as [|args rest].
    + rewrite arm_drained. intros [= <-]. simpl. split; [done|].
      rewrite invocations_called, entered_called, armed_by_snoc.
      apply sublist_app; [|done].
      etrans; [apply sublist_inserts_r; reflexivity|exact Hord].
    + rewrite arm_backlogged. intros E.
      eapply enter_orderly; [|exact E].
      destruct slot as [g|]; [by specialize (Hinv ltac:(eauto))|].
      split; simpl; [by intros [? ?]|].
      unfold armed_in_order. simpl.
      rewrite invocations_invoked, invocations_called, entered_invoked,
        entered_called, armed_by_snoc, fmap_app, !app_nil_r in *.
      by apply sublist_app.
  - destruct slot as [f|].
    + rewrite trigger_armed. intros E.
      eapply enter_orderly; [|exact E].
      split; simpl; [by intros [? ?]|].
      unfold armed_in_order. simpl.
      rewrite invocations_invoked, invocations_called, entered_invoked,
        entered_called, armed_by_snoc, fmap_app, !app_nil_r.
      exact Hord.
    + rewrite trigger_unarmed. intros [= <-]. simpl.
      split; [by intros [? ?]|].
      by rewrite invocations_called, entered_called, armed_by_snoc,
        !app_nil_r in *.
  - destruct slot as [f|].
    + rewrite triggerIfArmed_armed. unfold mbind, M_bind.
      destruct (enter f args _) as [[[] w1]|e] eqn:E; [|done].
      intros [= <-].
      assert (orderly w1) as [Hinv1 Hord1]; [|by split].
      eapply enter_orderly; [|exact E].
      split; simpl; [by intros [? ?]|].
      unfold armed_in_order. simpl.
      rewrite invocations_invoked, invocations_called, entered_invoked,
        entered_called, armed_by_snoc, fmap_app, !app_nil_r.
      exact Hord.
    + rewrite triggerIfArmed_unarmed. intros [= <-]. simpl.
      split; [by intros [? ?]|].
      by rewrite invocations_called, entered_called, armed_by_snoc,
        !app_nil_r in *.
Qed.

Lemma perform_all_orderly cs w w' :
  orderly w → perform_all enter cs w = Returns (tt, w') → orderly w'.
Proof.
  revert w. induction cs as [|c cs IH]; intros w Hw; simpl.
  - by intros [= <-].
  - unfold mbind, M_bind.
    destruct (perform enter c w) as [[[] w1]|e] eqn:E; [|done].
    apply IH. exact (perform_orderly c w w1 Hw E).
Qed.
End BurnOut.

Lemma run_body_orderly {Args} fuel (f : callback Args) args w w' :
  orderly w → run_body fuel f args w = Returns (tt, w') → orderly w'.
Proof.
  revert f args w w'. induction fuel as [|n IH]; intros f args w w' Hw.
  - done.
  - simpl. by apply perform_all_orderly.
Qed.

Lemma fresh_orderly {F Args} : orderly (@fresh F Args).
Proof. split; [by intros [? ?]|]. unfold armed_in_order. simpl. done. Qed.

Lemma orderly_burnt_out {F Args} (w : world F Args) :
  orderly w →
  (invocations (trace w)).*1 `sublist_of` armed_by (entered (trace w))
  ∧ length (invocations (trace w)) ≤ length (armed_by (entered (trace w))).
Proof.
  intros [_ Hord]. unfold armed_in_order in Hord.
  assert ((invocations (trace w)).*1
          `sublist_of` armed_by (entered (trace w))) as Hsub.
  { etrans; [apply sublist_inserts_r; reflexivity|exact Hord]. }
  split; [done|]. apply sublist_length in Hsub. by rewrite length_fmap in Hsub.
Qed.

(** Property X4.  A callback burns out when it fires.  Whatever program of
    [arm], [trigger] and [triggerIfArmed] calls is run on a fresh instance,
    the callbacks invoked, in the order of their invocations, are callbacks
    handed to [arm], in the order they were handed over, each [arm] call
    accounting for at most one invocation.  This holds of every program with
    callbacks that leave the instance alone, and of every run that returns
    when callbacks call back into the instance. *)
Theorem armed_callbacks_fire_once_in_order {F Args} :
  (∀ cs : list (call F Args),
     ∃ w, perform_all inert cs fresh = Returns (tt, w)
          ∧ (invocations (trace w)).*1 `sublist_of` armed_by cs
          ∧ length (invocations (trace w)) ≤ length (armed_by cs))
  ∧ (∀ fuel (cs : list (call (callback Args) Args)) w,
       run fuel cs fresh = Returns (tt, w) →
       (invocations (trace w)).*1 `sublist_of` armed_by (entered (trace w))
       ∧ length (invocations (trace w))
         ≤ length (armed_by (entered (trace w)))).
Proof.
  split.
  - intros cs.
    destruct (perform_all_inert cs None [] [])
      as (slot' & q' & new & E & Hent & _).
    eexists. split; [exact E|].
    assert (orderly (mkWorld (mkRearmableCallback Unlocked slot' q')
                       ([] ++ new))) as Hw.
    { apply (perform_all_orderly inert) with (cs := cs) (w := fresh);
        [|apply fresh_orderly|exact E].
      intros f args w w' Hw [= <-]. exact Hw. }
    apply orderly_burnt_out in Hw. simpl in Hw. by rewrite Hent in Hw.
  - intros fuel cs w E. apply orderly_burnt_out.
    apply (perform_all_orderly (run_body fuel)) with (cs := cs) (w := fresh);
      [|apply fresh_orderly|exact E].
    intros f args. apply run_body_orderly.
Qed.

(** Two callbacks armed in a row, then two triggers: the second callback
    fires, once, and the first never does. *)
Lemma armed_callbacks_fire_once_in_order_witness :
  ∃ w : world (callback nat) nat,
    run 1 [Arm (Fn 0 (λ _, [])); Arm (Fn 1 (λ _, []));
           Trigger 5; Trigger 6] fresh = Returns (tt, w)
    ∧ length (invocations (trace w))
      ≤ length (armed_by (entered (trace w))).
Proof.
  eexists. split; [reflexivity|].
  exact (proj2 (proj2 (@armed_callbacks_fire_once_in_order nat nat) 1
                  [Arm (Fn 0 (λ _, [])); Arm (Fn 1 (λ _, []));
                   Trigger 5; Trigger 6] _ eq_refl)).
Defined.

(** ** Flushing *)

(** Property X5.  [triggerIfArmed(args)] called with the mutex free, with a
    callback that leaves the instance alone, returns with the slot empty and
    the backlog exactly as it was, whether the slot was occupied or not: it
    makes at most one invocation and drops no stashed arguments.  A second
    [triggerIfArmed] right after it does nothing. *)
Theorem triggerIfArmed_flushes_once {F Args} (args args' : Args)
    (w : world F Args) :
  mutex_ (self w) = Unlocked →
  ∃ w1,
    triggerIfArmed inert args w = Returns (tt, w1)
    ∧ mutex_ (self w1) = Unlocked
    ∧ callback_ (self w1) = None
    ∧ queue_ (self w1) = queue_ (self w)
    ∧ invocations (trace w1)
      = invocations (trace w)
        ++ match callback_ (self w) with
           | Some f => [(f, args)]
           | None => []
           end
    ∧ (triggerIfArmed inert args;; triggerIfArmed inert args') w
      = Returns (tt, w1).
Proof.
  destruct w as [[m slot q] tr]; simpl. intros ->.
  destruct slot as [f|].
  - eexists. split; [reflexivity|]. simpl.
    split_and!; try done. apply invocations_invoked.
  - eexists. split; [reflexivity|]. simpl.
    split_and!; try done. by rewrite app_nil_r.
Qed.

(** A flush of an armed instance that has nothing stashed, and a flush of an
    unarmed one with [3] stashed. *)
Lemma triggerIfArmed_flushes_once_witness :
  (∃ w1 : world nat nat,
     triggerIfArmed inert 9
       (mkWorld (mkRearmableCallback Unlocked (Some 0) []) [])
     = Returns (tt, w1)
     ∧ callback_ (self w1) = None
     ∧ invocations (trace w1) = [(0, 9)])
  ∧ (∃ w1 : world nat nat,
       triggerIfArmed inert 9
         (mkWorld (mkRearmableCallback Unlocked None [3]) [])
       = Returns (tt, w1)
       ∧ queue_ (self w1) = [3]
       ∧ invocations (trace w1) = []).
Proof.
  split.
  - destruct (triggerIfArmed_flushes_once 9 9
                (mkWorld (@mkRearmableCallback nat nat Unlocked (Some 0) []) [])
                eq_refl) as (w1 & E & _ & Hslot & _ & Hinv & _).
    exists w1. split_and!; assumption.
  - destruct (triggerIfArmed_flushes_once 9 9
                (mkWorld (@mkRearmableCallback nat nat Unlocked None [3]) [])
                eq_refl) as (w1 & E & _ & _ & Hq & Hinv & _).
    exists w1. split_and!; assumption.
Defined.

(** ** Rearming from inside a callback *)

Section Calm.
Context {Args : Type}.
Variable enter : callback Args -> Args -> M (world (callback Args) Args) unit.

Lemma mutex_seen_called (tr : list (event (callback Args) Args)) c :
  mutex_seen (tr ++ [Called c]) = mutex_seen tr.
Proof. unfold mutex_seen. rewrite omap_app. simpl. apply app_nil_r. Qed.

Lemma mutex_seen_invoked (tr : list (event (callback Args) Args)) f args m :
  mutex_seen (tr ++ [Invoked f args m]) = mutex_seen tr ++ [m].
Proof. unfold mutex_seen. by rewrite omap_app. Qed.

Hypothesis enter_calm : ∀ f args w,
  calm f → relaxed w →
  enter f args w ≠ Fails Deadlock
  ∧ ∀ w', enter f args w = Returns (tt, w') → relaxed w'.

Lemma perform_calm c w :
  rearms calm c → relaxed w →
  perform enter c w ≠ Fails Deadlock
  ∧ ∀ w', perform enter c w = Returns (tt, w') → relaxed w'.
Proof.
  destruct w as [[m slot q] tr]. intros Hc (Hm & Hslot & Hseen).
  simpl in Hm, Hslot, Hseen. subst m. rewrite perform_unfold.
  destruct Hc as [f Hf|args].
  - destruct q as [|args rest].
    + rewrite arm_drained. split; [done|]. intros w' [= <-].
      split_and!; simpl; [done| |by rewrite mutex_seen_called].
      by intros g [= <-].
    + rewrite arm_backlogged. apply enter_calm; [done|].
      split_and!; simpl; [done|done|].
      rewrite mutex_seen_invoked, mutex_seen_called.
      apply Forall_app. split; [done|by constructor].
  - destruct slot as [f|].
    + rewrite trigger_armed. apply enter_calm; [by apply Hslot|].
      split_and!; simpl; [done|done|].
      rewrite mutex_seen_invoked, mutex_seen_called.
      apply Forall_app. split; [done|by constructor].
    + rewrite trigger_unarmed. split; [done|]. intros w' [= <-].
      split_and!; simpl; [done|done|by rewrite mutex_seen_called].
Qed.

Lemma perform_all_calm cs w :
  Forall (rearms calm) cs → relaxed w →
  perform_all enter cs w ≠ Fails Deadlock
  ∧ ∀ w', perform_all enter cs w = Returns (tt, w') → relaxed w'.
Proof.
  intros Hcs. revert w. induction Hcs as [|c cs Hc Hcs IH]; intros w Hw; simpl.
  - split; [done|]. by intros w' [= <-].
  - unfold mbind, M_bind.
    destruct (perform_calm c w Hc Hw) as [Hdead Hret].
    destruct (perform enter c w) as [[[] w1]|e]; [by apply IH, Hret|].
    split; [congruence|done].
Qed.
End Calm.

Lemma run_body_calm {Args} fuel (f : callback Args) args w :
  calm f → relaxed w →
  run_body fuel f args w ≠ Fails Deadlock
  ∧ ∀ w', run_body fuel f args w = Returns (tt, w') → relaxed w'.
Proof.
  revert f args w. induction fuel as [|n IH]; intros f args w Hf Hw.
  - split; done.
  - simpl. apply perform_all_calm; [exact IH| |done].
    destruct Hf as [name b Hb]. apply Hb.
Qed.

(** Property X7.  Callbacks may call [arm] and [trigger] from inside.  A
    program of [arm] and [trigger] calls on a fresh instance, whose callbacks
    call only [arm] and [trigger] in turn, never blocks on the mutex however
    deep the callbacks nest; when it returns the mutex is free and every
    callback invoked found it free. *)
Theorem rearming_never_deadlocks {Args} fuel
    (cs : list (call (callback Args) Args)) :
  Forall (rearms calm) cs →
  run fuel cs fresh ≠ Fails Deadlock
  ∧ ∀ w, run fuel cs fresh = Returns (tt, w) →
         mutex_ (self w) = Unlocked
         ∧ Forall (λ m, m = Unlocked) (mutex_seen (trace w)).
Proof.
  intros Hcs.
  destruct (perform_all_calm (run_body fuel) (run_body_calm fuel) cs fresh Hcs)
    as [Hdead Hret].
  { split_and!; simpl; [done|done|constructor]. }
  split; [done|]. intros w E. destruct (Hret w E) as (Hm & _ & Hseen). done.
Qed.

(** A callback that stashes the next number and arms a successor, triggered
    twice. *)
Lemma rearming_never_deadlocks_witness :
  ∃ w : world (callback nat) nat,
    run 2 [Arm (Fn 0 (λ a, [Trigger (a + 1); Arm (Fn 1 (λ _, []))]));
           Trigger 7] fresh
    = Returns (tt, w)
    ∧ mutex_ (self w) = Unlocked
    ∧ Forall (λ m, m = Unlocked) (mutex_seen (trace w)).
Proof.
  eexists. split; [reflexivity|].
  refine (proj2 (rearming_never_deadlocks 2
            [Arm (Fn 0 (λ a, [Trigger (a + 1); Arm (Fn 1 (λ _, []))]));
             Trigger 7] _) _ eq_refl).
  repeat constructor.
Defined.

(** ** Who receives what, when the caller keeps the arm discipline *)

Section Pairing.
Context {F Args : Type}.
Implicit Types (fs : list F) (ts : list Args) (cs : list (call F Args)).

Lemma zip_snoc_l_full fs ts f :
  length ts ≤ length fs → zip (fs ++ [f]) ts = zip fs ts.
Proof.
  revert ts. induction fs as [|g fs IH]; intros [|t ts]; simpl; try done.
  - lia.
  - intros Hlen. f_equal. apply IH. lia.
Qed.

Lemma zip_snoc_l_next fs ts f t :
  ts !! length fs = Some t → zip (fs ++ [f]) ts = zip fs ts ++ [(f, t)].
Proof.
  revert ts. induction fs as [|g fs IH]; intros [|t' ts]; simpl; try done.
  - by intros [= ->].
  - intros Hl. f_equal. by apply IH.
Qed.

Lemma zip_snoc_r_full fs ts t :
  length fs ≤ length ts → zip fs (ts ++ [t]) = zip fs ts.
Proof.
  revert ts. induction fs as [|g fs IH]; intros [|t' ts]; simpl; try done.
  - lia.
  - intros Hlen. f_equal. apply IH. lia.
Qed.

Lemma zip_snoc_r_next fs ts t f :
  fs !! length ts = Some f → zip fs (ts ++ [t]) = zip fs ts ++ [(f, t)].
Proof.
  revert ts. induction fs as [|g fs IH]; intros [|t' ts]; simpl; try done.
  - intros [= ->]. by destruct fs.
  - intros Hl. f_equal. by apply IH.
Qed.

Lemma disciplined_nil : disciplined (@nil (call F Args)).
Proof. intros p ->%prefix_nil_inv. simpl. lia. Qed.

Lemma disciplined_snoc cs c :
  disciplined cs →
  length (armed_by (cs ++ [c])) ≤ S (length (triggered (cs ++ [c]))) →
  disciplined (cs ++ [c]).
Proof.
  intros Hcs Hc p [k Hk]. destruct k as [|x k _] using rev_ind.
  - rewrite app_nil_r in Hk. by subst p.
  - apply Hcs. exists k. rewrite app_assoc in Hk.
    by apply app_inj_tail in Hk as [? _].
Qed.

Lemma disciplined_snoc_inv cs c :
  disciplined (cs ++ [c]) →
  disciplined cs
  ∧ length (armed_by (cs ++ [c])) ≤ S (length (triggered (cs ++ [c]))).
Proof.
  intros H. split; [|by apply H].
  intros p Hp. apply H. etrans; [exact Hp|]. by apply prefix_app_r.
Qed.

(** The state a disciplined program of [arm] and [trigger] calls reaches. *)
Lemma perform_all_paired cs :
  forallb is_arm_or_trigger cs →
  disciplined cs →
  ∃ new,
    perform_all inert cs fresh
    = Returns (tt, mkWorld
                     (mkRearmableCallback Unlocked
                        (armed_by cs !! length (triggered cs))
                        (drop (length (armed_by cs)) (triggered cs)))
                     new)
    ∧ invocations new = zip (armed_by cs) (triggered cs).
Proof.
  induction cs as [|c cs IH] using rev_ind; intros Hok Hdis.
  - by exists [].
  - rewrite forallb_app in Hok. apply andb_prop_elim in Hok as [Hok Hc].
    apply disciplined_snoc_inv in Hdis as [Hdis Hlen].
    destruct (IH Hok Hdis) as (new & E & Hinv).
    rewrite perform_all_app. unfold mbind at 1, M_bind at 1. rewrite E.
    cbn [perform_all]. unfold mbind at 1, M_bind at 1.
    rewrite perform_unfold.
    pose proof (Hdis cs ltac:(done)) as Hcur.
    rewrite armed_by_snoc, triggered_snoc, !length_app in *.
    clear IH Hdis. revert E Hinv Hlen Hcur.
    generalize (armed_by cs) (triggered cs). intros fs ts E Hinv Hlen Hcur.
    destruct c as [f|t|t]; [| |done]; clear Hok Hc; simpl in Hlen |- *.
    + rewrite app_nil_r, Nat.add_0_r in *.
      assert (length fs ≤ length ts) as Hle by lia.
      rewrite (lookup_ge_None_2 fs (length ts)) by done.
      destruct (drop (length fs) ts) as [|t rest] eqn:Hdrop.
      * assert (length ts ≤ length fs) as Hge.
        { apply (f_equal length) in Hdrop. rewrite length_drop in Hdrop.
          simpl in Hdrop. lia. }
        rewrite arm_drained. eexists. split.
        -- unfold mret, M_ret. repeat f_equal.
           ++ replace (length ts) with (length fs) by lia.
              by rewrite list_lookup_middle.
           ++ rewrite drop_ge; [done|lia].
        -- by rewrite invocations_called, Hinv, zip_snoc_l_full.
      * assert (ts !! length fs = Some t) as Ht.
        { rewrite <-(Nat.add_0_r (length fs)), <-lookup_drop. by rewrite Hdrop. }
        rewrite arm_backlogged. unfold inert, mret, M_ret. eexists. split.
        -- repeat f_equal.
           ++ symmetry. apply lookup_ge_None_2. rewrite length_app. simpl.
              apply lookup_lt_Some in Ht. lia.
           ++ rewrite (drop_S _ _ _ Ht) in Hdrop. injection Hdrop as <-.
              by rewrite Nat.add_1_r.
        -- rewrite invocations_invoked, invocations_called, Hinv.
           by rewrite (zip_snoc_l_next _ _ _ _ Ht).
    + rewrite app_nil_r, Nat.add_0_r in *.
      destruct (fs !! length ts) as [g|] eqn:Hg.
      * assert (length fs = S (length ts)) as Hlen'.
        { apply lookup_lt_Some in Hg. lia. }
        rewrite (drop_ge ts) by lia.
        rewrite trigger_armed. unfold inert, mret, M_ret. eexists. split.
        -- repeat f_equal.
           ++ symmetry. apply lookup_ge_None_2. lia.
           ++ rewrite drop_ge; [done|]. rewrite length_app. simpl. lia.
        -- rewrite invocations_invoked, invocations_called, Hinv.
           by rewrite (zip_snoc_r_next _ _ _ _ Hg).
      * assert (length fs ≤ length ts) as Hle by by apply lookup_ge_None.
        rewrite trigger_unarmed. unfold mret, M_ret. eexists. split.
        -- repeat f_equal.
           ++ symmetry. apply lookup_ge_None_2. lia.
           ++ by rewrite drop_app_le.
        -- rewrite invocations_called, Hinv. by rewrite zip_snoc_r_full.
Qed.
End Pairing.

(** Property X3.  Callbacks and arguments pair off in order.  Take a program
    of [arm] and [trigger] calls on a fresh instance in which the caller
    never arms twice without a [trigger] in between, with callbacks that
    leave the instance alone.  However the two kinds of call interleave, the
    i-th callback armed is invoked with the arguments of the i-th [trigger]
    call, and with nothing else.  Arguments beyond the callbacks armed wait
    in the backlog, and a callback beyond the arguments triggered waits in
    the slot. *)
Theorem callbacks_pair_with_triggers {F Args} (cs : list (call F Args)) :
  forallb is_arm_or_trigger cs →
  disciplined cs →
  ∃ w,
    perform_all inert cs fresh = Returns (tt, w)
    ∧ invocations (trace w) = zip (armed_by cs) (triggered cs)
    ∧ queue_ (self w) = drop (length (armed_by cs)) (triggered cs)
    ∧ callback_ (self w) = armed_by cs !! length (triggered cs).
Proof.
  intros Hok Hdis.
  destruct (perform_all_paired cs Hok Hdis) as (new & E & Hinv).
  eexists. split; [exact E|]. by split_and!.
Qed.

(** Two arguments triggered ahead, then callbacks 0, 1 and 2 armed with a
    third [trigger] before the last: each callback gets its own argument. *)
Lemma callbacks_pair_with_triggers_witness :
  ∃ w : world nat nat,
    perform_all inert
      [Trigger 10; Trigger 11; Arm 0; Arm 1; Trigger 12; Arm 2] fresh
    = Returns (tt, w)
    ∧ invocations (trace w) = [(0, 10); (1, 11); (2, 12)].
Proof.
  destruct (callbacks_pair_with_triggers
              [@Trigger nat nat 10; Trigger 11; Arm 0; Arm 1; Trigger 12; Arm 2]
              I) as (w & E & Hinv & _).
  - change [@Trigger nat nat 10; Trigger 11; Arm 0; Arm 1; Trigger 12; Arm 2]
      with (((((([] ++ [@Trigger nat nat 10]) ++ [Trigger 11]) ++ [Arm 0])
                ++ [Arm 1]) ++ [Trigger 12]) ++ [Arm 2]).
    repeat (apply disciplined_snoc; [|simpl; lia]).
    apply disciplined_nil.
  - exists w. split; assumption.
Defined.

(** ** Calls made from inside callbacks *)

Section Serial.
Context {F Args : Type}.
Variable enter : F -> Args -> M (world F Args) unit.

(** Going from [w] to [w'] by the calls entered in between, made one after
    the other with callbacks that leave the instance alone. *)
Lemma serial_refl (w : world F Args) :
  ∃ new, trace w = trace w ++ new
         ∧ perform_all inert (entered new) w = Returns (tt, w).
Proof. exists []. by rewrite app_nil_r. Qed.

Lemma serial_trans (w w1 w2 : world F Args) :
  (∃ new, trace w1 = trace w ++ new
          ∧ perform_all inert (entered new) w = Returns (tt, w1)) →
  (∃ new, trace w2 = trace w1 ++ new
          ∧ perform_all inert (entered new) w1 = Returns (tt, w2)) →
  ∃ new, trace w2 = trace w ++ new
         ∧ perform_all inert (entered new) w = Returns (tt, w2).
Proof.
  intros (new1 & Htr1 & E1) (new2 & Htr2 & E2). exists (new1 ++ new2). split.
  - by rewrite Htr2, Htr1, app_assoc.
  - unfold entered in *. rewrite omap_app, perform_all_app.
    unfold mbind, M_bind. by rewrite E1.
Qed.

Hypothesis enter_serial : ∀ f args w w',
  enter f args w = Returns (tt, w') →
  ∃ new, trace w' = trace w ++ new
         ∧ perform_all inert (entered new) w = Returns (tt, w').

Lemma perform_serial c w w' :
  perform enter c w = Returns (tt, w') →
  ∃ new, trace w' = trace w ++ new
         ∧ perform_all inert (entered new) w = Returns (tt, w').
Proof.
  destruct w as [[[] slot q] tr]; [|by rewrite perform_locked].
  rewrite perform_unfold. destruct c as [f|args|args].
  - destruct q as [|args rest].
    + rewrite arm_drained. intros [= <-]. by exists [Called (Arm f)].
    + rewrite arm_backlogged. intros E.
      eapply serial_trans; [|exact (enter_serial _ _ _ _ E)].
      exists [Called (Arm f); Invoked f args Unlocked]. simpl.
      split; [by rewrite <-app_assoc|reflexivity].
  - destruct slot as [f|].
    + rewrite trigger_armed. intros E.
      eapply serial_trans; [|exact (enter_serial _ _ _ _ E)].
      exists [Called (Trigger args); Invoked f args Unlocked]. simpl.
      split; [by rewrite <-app_assoc|reflexivity].
    + rewrite trigger_unarmed. intros [= <-].
      by exists [Called (Trigger args)].
  - destruct slot as [f|].
    + rewrite triggerIfArmed_armed. unfold mbind, M_bind.
      destruct (enter f args _) as [[[] w1]|e] eqn:E; [|done].
      intros [= <-].
      destruct (enter_serial _ _ _ _ E) as (new & Htr & E1).
      destruct (entered new) as [|c cs] eqn:Hent.
      * injection E1 as <-.
        exists [Called (TriggerIfArmed args); Invoked f args Locked]. simpl.
        split; [by rewrite <-app_assoc|reflexivity].
      * simpl in E1. unfold mbind, M_bind in E1.
        by rewrite perform_locked in E1.
    + rewrite triggerIfArmed_unarmed. intros [= <-].
      by exists [Called (TriggerIfArmed args)].
Qed.

Lemma perform_all_serial cs w w' :
  perform_all enter cs w = Returns (tt, w') →
  ∃ new, trace w' = trace w ++ new
         ∧ perform_all inert (entered new) w = Returns (tt, w').
Proof.
  revert w. induction cs as [|c cs IH]; intros w; simpl.
  - intros [= <-]. apply serial_refl.
  - unfold mbind, M_bind.
    destruct (perform enter c w) as [[[] w1]|e] eqn:E; [|done].
    intros E'. eapply serial_trans; [exact (perform_serial c w w1 E)|].
    by apply IH.
Qed.
End Serial.

Lemma run_body_serial {Args} fuel (f : callback Args) args w w' :
  run_body fuel f args w = Returns (tt, w') →
  ∃ new, trace w' = trace w ++ new
         ∧ perform_all inert (entered new) w = Returns (tt, w').
Proof.
  revert f args w w'. induction fuel as [|n IH]; intros f args w w'; [done|].
  simpl. by apply perform_all_serial.
Qed.

(** Property X8.  Calls made from inside callbacks act as if made one after
    the other from outside.  When a run in which callbacks call back into the
    instance returns, the same calls, in the order they were entered and with
    callbacks that leave the instance alone, take the instance from the same
    start to the same end: the same slot, backlog and mutex, and the same
    history of calls and invocations. *)
Theorem nested_calls_serialize {Args} fuel
    (cs : list (call (callback Args) Args)) w w' :
  run fuel cs w = Returns (tt, w') →
  ∃ new, trace w' = trace w ++ new
         ∧ perform_all inert (entered new) w = Returns (tt, w').
Proof. apply perform_all_serial. intros f args. apply run_body_serial. Qed.

(** A callback that stashes the next number and arms a successor: the run
    is the one of [arm(f); trigger(7); trigger(8); arm(g)]. *)
Lemma nested_calls_serialize_witness :
  ∃ w' : world (callback nat) nat,
    run 2 [Arm (Fn 0 (λ a, [Trigger (a + 1); Arm (Fn 1 (λ _, []))]));
           Trigger 7] fresh
    = Returns (tt, w')
    ∧ entered (trace w')
      = [Arm (Fn 0 (λ a, [Trigger (a + 1); Arm (Fn 1 (λ _, []))]));
         Trigger 7; Trigger 8; Arm (Fn 1 (λ _, []))]
    ∧ perform_all inert (entered (trace w')) fresh = Returns (tt, w').
Proof.
  eexists. split; [reflexivity|]. split; [reflexivity|].
  destruct (nested_calls_serialize 2
              [Arm (Fn 0 (λ a, [Trigger (a + 1); Arm (Fn 1 (λ _, []))]));
               Trigger 7] fresh _ eq_refl) as (new & Htr & E).
  simpl in Htr. subst new. exact E.
Defined.

(** * Properties of runIfAlive *)

Section Guard.
Context {Args U : Type}.
Variable fn : positive -> Args -> U -> U.

Lemma use_count_set p n (h : heap Args U) :
  use_count p (set_use_count p n h) = n.
Proof. unfold use_count, set_use_count. simpl. by rewrite lookup_insert_eq. Qed.

Lemma set_use_count_twice p n (h : heap Args U) m :
  use_count p h = S n →
  set_use_count p (S n) (set_use_count p m h) = h.
Proof.
  destruct h as [o u c]. unfold use_count, set_use_count. simpl. intros Hn.
  destruct (o !! p) as [k|] eqn:E; simpl in Hn; [subst k|done].
  by rewrite insert_insert_eq, insert_id.
Qed.

Lemma weak_lock_alive p n (h : heap Args U) :
  use_count p h = S n →
  weak_lock p h = Returns (Some p, set_use_count p (S (S n)) h).
Proof. intros E. unfold weak_lock, gets, mbind, M_bind. by rewrite E. Qed.

Lemma deref_alive p n (h : heap Args U) :
  use_count p h = S n → deref (Some p) h = Returns (p, h).
Proof. intros E. unfold deref, gets, mbind, M_bind. by rewrite E. Qed.

Lemma shared_release_owner p n (h : heap Args U) :
  use_count p h = S n →
  shared_release (Some p) h = Returns (tt, set_use_count p n h).
Proof.
  intros E. unfold shared_release, gets, modify, mbind, M_bind. by rewrite E.
Qed.

(** The closure, whatever its function does: on a live object the function
    is called with one owner more than there were, which is released when
    the call returns. *)
Lemma wrapper_calling_alive call weak args n (h : heap Args U) :
  use_count weak h = S n →
  wrapper_calling call weak args h
  = (call weak args;; shared_release (Some weak))
      (set_use_count weak (S (S n)) h).
Proof.
  intros E. unfold wrapper_calling, mbind, M_bind.
  rewrite (weak_lock_alive weak n h E).
  by rewrite (deref_alive weak (S n)) by apply use_count_set.
Qed.

Lemma wrapper_calling_dead call weak args (h : heap Args U) :
  use_count weak h = 0 →
  wrapper_calling call weak args h = Returns (tt, h).
Proof.
  intros Hdead. unfold wrapper_calling, weak_lock, gets, mbind, M_bind.
  by rewrite Hdead.
Qed.

Lemma runIfAlive_calling_returns call subject (h0 h0' : heap Args U) g :
  runIfAlive_calling call subject h0 = Returns (g, h0') →
  g = wrapper_calling call subject ∧ 0 < use_count subject h0 ∧ h0' = h0.
Proof.
  unfold runIfAlive_calling, shared_from_this, shared_release, gets, modify,
    mbind, M_bind, mret, M_ret, fail.
  destruct (use_count subject h0) as [|n] eqn:E; [done|]. simpl.
  rewrite use_count_set. simpl. intros [= <- <-].
  split_and!; [done|lia|]. by apply set_use_count_twice.
Qed.

(** The closure run on a live object. *)
Lemma wrapper_alive weak args (h : heap Args U) :
  0 < use_count weak h →
  wrapper fn weak args h
  = Returns (tt, mkHeap (owners h) (fn weak args (user h))
                        (calls h ++ [(weak, args)])).
Proof.
  intros Hlive.
  destruct (use_count weak h) as [|n] eqn:E; [lia|].
  unfold wrapper. rewrite (wrapper_calling_alive _ weak args n h E).
  unfold mbind, M_bind, call_fn, modify.
  rewrite (shared_release_owner weak (S n)) by apply use_count_set.
  do 2 f_equal.
  pose proof (set_use_count_twice weak n h (S (S n)) E) as Hback.
  destruct h as [o u c]. unfold set_use_count in *. simpl in *.
  by injection Hback as ->.
Qed.

(** The closure run on a destroyed object. *)
Lemma wrapper_dead weak args (h : heap Args U) :
  use_count weak h = 0 →
  wrapper fn weak args h = Returns (tt, h).
Proof. apply wrapper_calling_dead. Qed.

Lemma runIfAlive_returns subject (h0 h0' : heap Args U) g :
  runIfAlive fn subject h0 = Returns (g, h0') →
  g = wrapper fn subject ∧ 0 < use_count subject h0 ∧ h0' = h0.
Proof.
  unfold runIfAlive, runIfAlive_calling, shared_from_this, shared_release,
    gets, modify, mbind, M_bind, mret, M_ret, fail.
  destruct (use_count subject h0) as [|n] eqn:E; [done|]. simpl.
  rewrite use_count_set. simpl. intros [= <- <-].
  split_and!; [done|lia|]. by apply set_use_count_twice.
Qed.

Lemma invoke_each_alive weak l (h : heap Args U) :
  0 < use_count weak h →
  invoke_each (wrapper fn weak) l h
  = Returns (tt, mkHeap (owners h)
                        (foldl (λ u args, fn weak args u) (user h) l)
                        (calls h ++ ((weak,.) <$> l))).
Proof.
  revert h. induction l as [|args l IH]; intros h Hlive; simpl.
  - rewrite app_nil_r. by destruct h.
  - unfold mbind, M_bind. rewrite wrapper_alive by done.
    rewrite IH by done. simpl. by rewrite <-app_assoc.
Qed.

Lemma invoke_each_dead weak l (h : heap Args U) :
  use_count weak h = 0 →
  invoke_each (wrapper fn weak) l h = Returns (tt, h).
Proof.
  intros Hdead. induction l as [|args l IH]; simpl; [done|].
  unfold mbind, M_bind. by rewrite wrapper_dead.
Qed.

Lemma use_count_insert p n o (u : U) (c : list (positive * Args)) :
  use_count p (mkHeap (<[p := n]> o) u c) = n.
Proof. unfold use_count. simpl. by rewrite lookup_insert_eq. Qed.

Lemma releases_cons (a : action U) l :
  releases (a :: l)
  = match a with ReleaseOwner => S (releases l) | _ => releases l end.
Proof. by destruct a. Qed.

(** A function that releases owners, uses its reference and works on the
    user state, started while the object has more owners than it releases:
    every use of the reference finds the object alive. *)
Lemma acts_keep_alive subject l k (h : heap Args U) :
  releases l ≤ k →
  use_count subject h = S k →
  acts subject l h
  = Returns (tt, mkHeap (<[subject := S k - releases l]> (owners h))
                        (work l (user h)) (calls h)).
Proof.
  revert k h. induction l as [|a l IH]; intros k h Hle Hk.
  - pose proof (set_use_count_twice subject k h (S k) Hk) as Hback.
    destruct h as [o u c]. unfold set_use_count in Hback. simpl in *.
    rewrite insert_insert_eq in Hback. by rewrite Hback.
  - cbn [acts]. unfold mbind, M_bind. rewrite releases_cons in *.
    destruct a as [| |f]; cbn [act work].
    + destruct k as [|k]; [lia|].
      unfold drop_owner. rewrite (shared_release_owner subject (S k) h Hk).
      rewrite (IH k) by (lia || apply use_count_set).
      simpl. by rewrite insert_insert_eq.
    + unfold use_reference, gets, mbind, M_bind. rewrite Hk.
      apply (IH k h Hle Hk).
    + unfold modify.
      apply (IH k (mkHeap (owners h) (f (user h)) (calls h)) Hle Hk).
Qed.

(** The same function handed a plain reference, with no owner of its own:
    once it has released every owner, its use of the reference dangles. *)
Lemma acts_release_all_dangles subject l n (h : heap Args U) :
  use_count subject h = n →
  acts subject (replicate n ReleaseOwner ++ UseReference :: l) h
  = Fails Dangling.
Proof.
  revert h. induction n as [|n IH]; intros h Hn.
  - cbn [replicate app acts act].
    unfold use_reference, gets, mbind, M_bind. by rewrite Hn.
  - cbn [replicate app acts act]. unfold mbind at 1, M_bind at 1.
    unfold drop_owner. rewrite (shared_release_owner subject n h Hn).
    apply IH, use_count_set.
Qed.

Lemma plain_reference_dangles subject (args : Args) l (h : heap Args U) :
  call_running
    (λ s _, acts s (replicate (use_count subject h) ReleaseOwner
                     ++ UseReference :: l))
    subject args h
  = Fails Dangling.
Proof.
  unfold call_running, modify, mbind, M_bind.
  by apply acts_release_all_dangles.
Qed.

(** Claim C8.  Let [g] be a wrapper that [runIfAlive(subject, fn)] returned,
    [fn] being any computation on the heap.  Invoked on [args] in a heap
    where [subject] still has an owner, [g] lists one call of [fn], on
    [subject] and [args], and runs [fn] with one owner more than there were,
    its own, which it releases when [fn] has returned.  Invoked in a heap
    where [subject] has no owner left, [g] returns without a fault and leaves
    the heap, the user state and the list of calls untouched.  So the
    reference stays valid throughout the call: a function that makes owners
    of [subject] let go, even all that there were, uses its reference and
    works on the user state finds the object alive at every use; [g]
    returns, with the owners released gone, the user state as the function
    left it and that one call listed.  For a function that only works on the
    user state the owners are afterwards exactly as before. *)
Theorem runIfAlive_guards :
  (∀ (code : positive -> Args -> M (heap Args U) unit) subject h0 h0' g,
     runIfAlive_calling (call_running code) subject h0 = Returns (g, h0') →
     ∀ args h,
       (∀ n, use_count subject h = S n →
          g args h
          = (code subject args;; shared_release (Some subject))
              (mkHeap (<[subject := S (S n)]> (owners h)) (user h)
                      (calls h ++ [(subject, args)])))
       ∧ (use_count subject h = 0 → g args h = Returns (tt, h)))
  ∧ (∀ (body : Args -> list (action U)) subject h0 h0' g,
       runIfAlive_calling (call_running (λ s a, acts s (body a))) subject h0
       = Returns (g, h0') →
       ∀ args h,
         0 < use_count subject h →
         releases (body args) ≤ use_count subject h →
         g args h
         = Returns
             (tt, mkHeap
                    (<[subject := use_count subject h - releases (body args)]>
                       (owners h))
                    (work (body args) (user h))
                    (calls h ++ [(subject, args)])))
  ∧ (∀ subject h0 h0' g,
       runIfAlive fn subject h0 = Returns (g, h0') →
       ∀ args h,
         0 < use_count subject h →
         g args h
         = Returns (tt, mkHeap (owners h) (fn subject args (user h))
                               (calls h ++ [(subject, args)]))).
Proof.
  split_and!.
  - intros code subject h0 h0' g (-> & _ & _)%runIfAlive_calling_returns
      args h.
    split; [|apply wrapper_calling_dead].
    intros n E. by rewrite (wrapper_calling_alive _ subject args n h E).
  - intros body subject h0 h0' g (-> & _ & _)%runIfAlive_calling_returns
      args h Hlive Hle.
    destruct (use_count subject h) as [|n] eqn:E; [lia|].
    rewrite (wrapper_calling_alive _ subject args n h E).
    unfold call_running, modify, mbind, M_bind. cbn [set_use_count].
    rewrite (acts_keep_alive subject (body args) (S n))
      by (done || apply use_count_set).
    cbn [owners user calls set_use_count].
    destruct (S (S n) - releases (body args)) as [|m] eqn:Hm; [lia|].
    rewrite (shared_release_owner subject m) by apply use_count_insert.
    unfold set_use_count. cbn [owners user calls].
    rewrite !insert_insert_eq. do 4 f_equal. lia.
  - intros subject h0 h0' g (-> & _ & _)%runIfAlive_returns args h.
    apply wrapper_alive.
Qed.

(** Claim C10.  A wrapper [g] that [runIfAlive(subject, fn)] returned can be
    invoked any number of times.  Over a list of argument tuples, while
    [subject] has an owner every invocation calls [fn] once more, in order;
    once [subject] has none, every invocation does nothing.  When the last
    owner lets go between two rounds of invocations, the first round reaches
    [fn] and nothing of the second does. *)
Theorem runIfAlive_wrapper_reusable subject (h0 h0' : heap Args U) g :
  runIfAlive fn subject h0 = Returns (g, h0') →
  ∀ l h,
    (0 < use_count subject h →
       invoke_each g l h
       = Returns (tt, mkHeap (owners h)
                             (foldl (λ u args, fn subject args u) (user h) l)
                             (calls h ++ ((subject,.) <$> l))))
    ∧ (use_count subject h = 0 → invoke_each g l h = Returns (tt, h))
    ∧ (use_count subject h = 1 →
       ∀ l', ∃ h',
         (invoke_each g l;; drop_owner subject;; invoke_each g l') h
         = Returns (tt, h')
         ∧ use_count subject h' = 0
         ∧ user h' = foldl (λ u args, fn subject args u) (user h) l
         ∧ calls h' = calls h ++ ((subject,.) <$> l)).
Proof.
  intros (-> & _ & _)%runIfAlive_returns l h. split_and!.
  - apply invoke_each_alive.
  - apply invoke_each_dead.
  - intros Hone l'. eexists. unfold mbind, M_bind.
    rewrite invoke_each_alive by lia.
    unfold drop_owner. rewrite (shared_release_owner subject 0) by done.
    rewrite invoke_each_dead by apply use_count_set.
    split; [done|]. split_and!; [apply use_count_set|done..].
Qed.
End Guard.

(** ** The guard at concrete inputs

    One object, and a function that adds its argument to a counter. *)

(** A function that makes the only owner let go, then uses its reference
    and adds its argument to the counter: the object outlives the call, and
    is destroyed when the wrapper returns. *)
Lemma runIfAlive_guards_witness :
  ∃ g,
    runIfAlive_calling
      (call_running
         (λ s a, acts s [ReleaseOwner; UseReference; Update (λ u, a + u)]))
      1 (mkHeap {[1%positive := 1]} 0 [])
    = Returns (g, mkHeap {[1%positive := 1]} 0 [])
    ∧ g 5 (mkHeap {[1%positive := 1]} 0 [])
      = Returns (tt, mkHeap {[1%positive := 0]} 5 [(1%positive, 5)])
    ∧ g 5 (mkHeap {[1%positive := 0]} 0 [])
      = Returns (tt, mkHeap {[1%positive := 0]} 0 []).
Proof.
  assert (runIfAlive_calling
            (call_running
               (λ s a, acts s [ReleaseOwner; UseReference;
                               Update (λ u, a + u)]))
            1 (mkHeap {[1%positive := 1]} 0 [])
          = Returns
              (wrapper_calling
                 (call_running
                    (λ s a, acts s [ReleaseOwner; UseReference;
                                    Update (λ u, a + u)])) 1,
               mkHeap {[1%positive := 1]} 0 [])) as E
    by (vm_compute; reflexivity).
  assert (0 < use_count 1 (mkHeap (Args:=nat) {[1%positive := 1]} 0 []))
    as Hlive by (vm_compute; constructor).
  assert (releases [@ReleaseOwner nat; UseReference; Update (λ u, 5 + u)]
          ≤ use_count 1 (mkHeap (Args:=nat) {[1%positive := 1]} 0 []))
    as Hle by (vm_compute; constructor).
  eexists. split; [exact E|]. split.
  - exact (proj1 (proj2 (@runIfAlive_guards nat nat (λ _ a u, a + u)))
             (λ a, [ReleaseOwner; UseReference; Update (λ u, a + u)])
             1%positive _ _ _ E 5 (mkHeap {[1%positive := 1]} 0 []) Hlive Hle).
  - exact (proj2 (proj1 (@runIfAlive_guards nat nat (λ _ a u, a + u))
                    _ 1%positive _ _ _ E 5
                    (mkHeap {[1%positive := 0]} 0 []))
                 eq_refl).
Defined.

(** Three invocations with the object owned once, and three with no
    owner. *)
Lemma runIfAlive_wrapper_reusable_witness :
  ∃ g,
    runIfAlive (λ _ args u, args + u) 1 (mkHeap {[1%positive := 1]} 0 [])
    = Returns (g, mkHeap {[1%positive := 1]} 0 [])
    ∧ invoke_each g [5; 6; 7] (mkHeap {[1%positive := 1]} 0 [])
      = Returns (tt, mkHeap {[1%positive := 1]} 18
                            [(1%positive, 5); (1%positive, 6); (1%positive, 7)])
    ∧ invoke_each g [5; 6; 7] (mkHeap {[1%positive := 0]} 0 [])
      = Returns (tt, mkHeap {[1%positive := 0]} 0 []).
Proof.
  assert (runIfAlive (λ _ args u, args + u) 1 (mkHeap {[1%positive := 1]} 0 [])
          = Returns (wrapper (λ _ args u, args + u) 1,
                     mkHeap {[1%positive := 1]} 0 [])) as E
    by (vm_compute; reflexivity).
  assert (0 < use_count 1 (mkHeap (Args:=nat) {[1%positive := 1]} 0 []))
    as Hlive by (vm_compute; constructor).
  exists (wrapper (λ _ args u, args + u) 1). split; [exact E|]. split.
  - exact (proj1 (runIfAlive_wrapper_reusable _ _ _ _ _ E [5; 6; 7]
                    (mkHeap {[1%positive := 1]} 0 []))
                 Hlive).
  - exact (proj1 (proj2 (runIfAlive_wrapper_reusable _ _ _ _ _ E [5; 6; 7]
                    (mkHeap {[1%positive := 0]} 0 [])))
                 eq_refl).
Defined.

(** * Further properties of runIfAlive *)

(** Property X6.  Making the wrapper takes no ownership.  Called on an
    object that some [shared_ptr] owns, [runIfAlive] returns the wrapper and
    leaves every use count as it was, so the wrapper does not keep the object
    alive.  Called on an object that no [shared_ptr] owns, it returns no
    wrapper: [shared_from_this] fails. *)
Theorem runIfAlive_takes_no_ownership {Args U}
    (fn : positive -> Args -> U -> U) subject (h : heap Args U) :
  (0 < use_count subject h →
     runIfAlive fn subject h = Returns (wrapper fn subject, h))
  ∧ (use_count subject h = 0 →
     runIfAlive fn subject h = Fails BadWeakPtr).
Proof.
  unfold runIfAlive, runIfAlive_calling, shared_from_this, gets, modify,
    mbind, M_bind, mret, M_ret, fail.
  split.
  - intros Hlive. destruct (use_count subject h) as [|n] eqn:E; [lia|].
    rewrite (shared_release_owner subject (S n)) by apply use_count_set.
    by rewrite (set_use_count_twice subject n h _ E).
  - by intros ->.
Qed.

(** An object owned twice, and one that was never handed to a
    [shared_ptr]. *)
Lemma runIfAlive_takes_no_ownership_witness :
  runIfAlive (λ _ args u, args + u) 1 (mkHeap {[1%positive := 2]} 0 [])
  = Returns (wrapper (λ _ args u, args + u) 1,
             mkHeap {[1%positive := 2]} 0 [])
  ∧ runIfAlive (λ _ args u, args + u) 1 (mkHeap (Args:=nat) ∅ 0 [])
    = Fails BadWeakPtr.
Proof.
  assert (0 < use_count 1 (mkHeap (Args:=nat) {[1%positive := 2]} 0 []))
    as Hlive by (vm_compute; repeat constructor).
  split.
  - exact (proj1 (runIfAlive_takes_no_ownership (λ _ args u, args + u) 1
                    (mkHeap {[1%positive := 2]} 0 [])) Hlive).
  - exact (proj2 (runIfAlive_takes_no_ownership (λ _ args u, args + u) 1
                    (mkHeap ∅ 0 [])) eq_refl).
Defined.
